(** * Staleable cache (package [cache], file [cache/staleable.go])

    A verification development for the stale-while-revalidate wrapper
    [StaleableCache]: its TTL arithmetic ([GetWithTTL], [Set]), its reload
    procedure ([loadAndStore]) and its read path ([Get]) with the
    single-flight table [inprogressMap].

    The sequential methods are state-passing functions over a [World]:
    the state of the external collaborators (underlying store, load
    function) and a log of the calls made to them.  [time.Duration] is a
    64-bit integer and its arithmetic wraps around.

    [Get] synchronises goroutines through a [sync.Map] and a channel, so
    it is embedded as a machine of program points.  A step is one
    operation on shared state (the table, a record's channel, a call to
    a collaborator) together with the goroutine-local code up to the
    next one; one goroutine steps at a time, in any order.  A record's
    [value] and [err] are written by its leader only and read by others
    only after a receive from the closed channel, so the assignments of
    lines 83-84, 88 and 93 are taken with the call before them.  Time
    does not pass: what the store answers is up to the store.  [Delete],
    [Invalidate], [Clear] and [GetType] delegate to the underlying store
    and are left out. *)

From stdpp Require Import base numbers option list strings gmap relations.

(** ** [time.Duration]: a signed 64-bit count of nanoseconds *)

Module Duration.
Local Open Scope Z_scope.

Definition min_int64 : Z := - 2 ^ 63.
Definition max_int64 : Z := 2 ^ 63 - 1.

(** The values an [int64] can hold. *)
Definition valid (d : Z) : Prop := min_int64 <= d <= max_int64.

(** Two's-complement wrap-around of Go's integer arithmetic. *)
Definition wrap (z : Z) : Z := (z + 2 ^ 63) mod 2 ^ 64 - 2 ^ 63.

Definition add (a b : Z) : Z := wrap (a + b).
Definition sub (a b : Z) : Z := wrap (a - b).

Definition Nanosecond : Z := 1.
Definition Microsecond : Z := 1000 * Nanosecond.
Definition Millisecond : Z := 1000 * Microsecond.
Definition Second : Z := 1000 * Millisecond.
Definition Minute : Z := 60 * Second.
Definition Hour : Z := 60 * Minute.
End Duration.

Abbreviation Duration := Z (only parsing).

(** ** Package [store]: options and the not-found error *)

Module store.

(** Modelled from the spec: package [store] ([Options], [Option],
    [ApplyOptions], [WithExpiration], [NotFound]) is imported by
    [staleable.go] but its file is not among the sources.  The spec's
    underlying store takes [Set(key,value,expiration)]; the tests build
    the expiration with [store.WithExpiration], read it back with
    [store.ApplyOptions(opts...).Expiration()] and expect the option
    appended last to decide it.  An [Option] is a function that updates
    an [Options] record, [ApplyOptions] applies them left to right to
    the zero record and returns a pointer that is never nil. *)
Record Options : Type := mkOptions {
  cost : Z;
  expiration : Duration;
  tags : list string;
}.

Definition Option : Type := Options → Options.

Definition WithCost (c : Z) : Option :=
  λ o, mkOptions c (expiration o) (tags o).
Definition WithExpiration (d : Duration) : Option :=
  λ o, mkOptions (cost o) d (tags o).
Definition WithTags (t : list string) : Option :=
  λ o, mkOptions (cost o) (expiration o) t.

Definition ApplyOptions (opts : list Option) : option Options :=
  Some (fold_left (λ o f, f o) opts (mkOptions 0 0 [])).

Definition Expiration (o : Options) : Duration := expiration o.

End store.

(** Go's [error] values, as far as [Get] tells them apart.  The type
    assertion of line 86 succeeds on a pointer to [store.NotFound] only:
    the tests return both [&store.NotFound{}] and the plain struct
    [store.NotFound{}], and only the former is recovered by [Get]. *)
Inductive error : Type :=
  | NotFoundPtr                (* &store.NotFound{}, a pointer *)
  | NotFoundStruct             (* store.NotFound{}, a struct value *)
  | errorString (msg : string) (* errors.New(msg) and every other error *).

Definition is_NotFound_pointer (e : error) : bool :=
  match e with NotFoundPtr => true | _ => false end.

(** How many elements of a list count, each weighted by [f]. *)
Definition tally {A : Type} (f : A → nat) (l : list A) : nat :=
  foldr (λ x n, f x + n) 0 l.

(** ** The wrapper *)

(** What the package is generic in: the type parameter [T] with its zero
    value [*new(T)]; contexts with [context.Background()]; the state [Env]
    of the collaborators (underlying store, loader); keys that are neither
    strings nor key generators, and their checksum. *)
Class Model : Type := {
  T : Type;
  zero : T;
  Context : Type;
  Background : Context;
  Env : Type;
  Obj : Type;
  checksum : Obj → string;
}.

Section cache.
Context {model : Model}.
Local Open Scope Z_scope.

(** [key any], by the cases of the type switch in [getCacheKey]. *)
Inductive Key : Type :=
  | KString (v : string)
  | KGenerator (GetCacheKey : string)   (* a CacheKeyGenerator *)
  | KOther (object : Obj).

Definition getCacheKey (key : Key) : string :=
  match key with
  | KString v => v
  | KGenerator v => v
  | KOther object => checksum object
  end.

(** The collaborators.  Their calls read and update [Env]. *)
Record SetterCacheInterface : Type := {
  si_GetWithTTL : Context → Key → Env → (T * Duration * option error) * Env;
  si_Set : Context → Key → T → list store.Option → Env → option error * Env;
}.

Definition LoadFunction : Type := Context → Key → Env → (T * option error) * Env.
Definition ShouldCachePredicate : Type := Key → T → bool.

(** [StaleableCache[T]] without its [inprogressMap], which is mutable
    shared state and lives in the machine state below.  A nil function
    field is [None]. *)
Record StaleableCache : Type := mkStaleableCache {
  cache : SetterCacheInterface;
  minimumTTL : Duration;
  refreshTTL : Duration;
  loadFunc : option LoadFunction;
  shouldCache : option ShouldCachePredicate;
}.

Definition StaleableCacheOption : Type := StaleableCache → StaleableCache.

Definition WithTTL (ttl : Duration) : StaleableCacheOption :=
  λ c, mkStaleableCache (cache c) (minimumTTL c) ttl (loadFunc c) (shouldCache c).
Definition WithMaxStaleCacheTTL (ttl : Duration) : StaleableCacheOption :=
  λ c, mkStaleableCache (cache c) ttl (refreshTTL c) (loadFunc c) (shouldCache c).
Definition WithStaleCacheLoadFunction (f : LoadFunction) : StaleableCacheOption :=
  λ c, mkStaleableCache (cache c) (minimumTTL c) (refreshTTL c) (Some f) (shouldCache c).
Definition WithStaleCachePredicate (f : ShouldCachePredicate) : StaleableCacheOption :=
  λ c, mkStaleableCache (cache c) (minimumTTL c) (refreshTTL c) (loadFunc c) (Some f).

Definition NewStaleable (underlyingCache : SetterCacheInterface)
    (opts : list StaleableCacheOption) : StaleableCache :=
  fold_left (λ c opt, opt c) opts (mkStaleableCache underlyingCache 0 0 None None).

(** *** Calls to the collaborators, logged *)

Inductive Event : Type :=
  | CallGetWithTTL (ctx : Context) (key : Key)
  | Println (value : T)
  | CallLoad (ctx : Context) (key : Key)
  | CallSet (ctx : Context) (key : Key) (value : T) (options : list store.Option).

Record World : Type := mkWorld {
  env : Env;
  trace : list Event;
}.

Definition M (A : Type) : Type := World → A * World.

#[export] Instance M_ret : MRet M := λ A (a : A) w, (a, w).
#[export] Instance M_bind : MBind M :=
  λ A B (k : A → M B) (m : M A) w, let '(a, w') := m w in k a w'.

Definition emit (e : Event) : M unit :=
  λ w, (tt, mkWorld (env w) (trace w ++ [e])).
Definition call {A} (f : Env → A * Env) : M A :=
  λ w, let '(a, e) := f (env w) in (a, mkWorld e (trace w)).

Section methods.
Variable s : StaleableCache.

(** [s.cache.GetWithTTL(ctx, key)] *)
Definition underlying_GetWithTTL (ctx : Context) (key : Key)
    : M (T * Duration * option error) :=
  _ ← emit (CallGetWithTTL ctx key);
  call (si_GetWithTTL (cache s) ctx key).

(** [s.cache.Set(ctx, key, value, options...)] *)
Definition underlying_Set (ctx : Context) (key : Key) (value : T)
    (options : list store.Option) : M (option error) :=
  _ ← emit (CallSet ctx key value options);
  call (si_Set (cache s) ctx key value options).

(** [s.loadFunc(ctx, key)] for a non-nil [loadFunc] *)
Definition call_loadFunc (f : LoadFunction) (ctx : Context) (key : Key)
    : M (T * option error) :=
  _ ← emit (CallLoad ctx key);
  call (f ctx key).

(** [GetWithTTL], lines 136-145. *)
Definition GetWithTTL (ctx : Context) (key : Key)
    : M (T * Duration * option error) :=
  '(value, storeCacheDuration, err) ← underlying_GetWithTTL ctx key;
  _ ← emit (Println value);
  match err with
  | Some e => mret (zero, 0, Some e)
  | None =>
      let storeCacheDuration := Duration.sub storeCacheDuration (minimumTTL s) in
      mret (value, storeCacheDuration, None)
  end.

(** The expiration [Set] appends, lines 149-158. *)
Definition Set_expiration (options : list store.Option) : Duration :=
  let opts := store.ApplyOptions options in
  let expiration := 0 in
  let expiration :=
    match opts with
    | Some o => store.Expiration o
    | None => expiration
    end in
  let expiration :=
    if decide (expiration = 0) then refreshTTL s else expiration in
  Duration.add (minimumTTL s) expiration.

(** [Set], lines 148-160. *)
Definition Set_ (ctx : Context) (key : Key) (value : T)
    (options : list store.Option) : M (option error) :=
  let options := options ++ [store.WithExpiration (Set_expiration options)] in
  underlying_Set ctx key value options.

(** [loadAndStore] up to its decision to write, lines 118-128: the
    pair to return, and whether line 129 is still to run. *)
Definition loadAndStore_load (ctx : Context) (key : Key)
    : M (T * option error * bool) :=
  match loadFunc s with
  | None => mret (zero, None, false)
  | Some f =>
      '(res, err) ← call_loadFunc f ctx key;
      match err with
      | Some e => mret (res, err, false)
      | None =>
          match shouldCache s with
          | Some p => if negb (p key res) then mret (res, err, false)
                      else mret (res, err, true)
          | None => mret (res, err, true)
          end
      end
  end.

(** [loadAndStore] from line 129 on: [_ = s.Set(ctx, key, res)] and
    the return. *)
Definition loadAndStore_store (ctx : Context) (key : Key)
    (res : T) (err : option error) : M (T * option error) :=
  _ ← Set_ ctx key res [];
  mret (res, err).

(** [loadAndStore], lines 117-132. *)
Definition loadAndStore (ctx : Context) (key : Key) : M (T * option error) :=
  '(res, err, write) ← loadAndStore_load ctx key;
  if write : bool then loadAndStore_store ctx key res err
  else mret (res, err).

End methods.

(** *** [Get] and the single-flight table

    [mapEntry[T]] records live on a heap of records, [entries]; a
    [*mapEntry[T]] is an index into it.  [lockChannel] is only ever
    closed and received from, so its state is whether it is closed. *)

Record mapEntry : Type := mkMapEntry {
  lockChannel : bool;
  value : T;
  err : option error;
}.

(** The program points of a goroutine: a caller inside [Get] (lines
    73-108) or the goroutine started at line 97.  Each point is named
    after the operation on shared state it is about to perform. *)
Inductive Goroutine : Type :=
  | Get_LoadOrStore (ctx : Context) (key : Key)                (* line 75 *)
  | Get_receive (mEntry : nat)                                 (* lines 78-79 *)
  | Get_GetWithTTL (ctx : Context) (key : Key) (mEntry : nat)  (* lines 82-95 *)
  | Get_load (ctx : Context) (key : Key) (mEntry : nat)        (* lines 88, 93: loadAndStore to line 128 *)
  | Get_store (ctx : Context) (key : Key) (mEntry : nat)
      (res : T) (e : option error)                             (* lines 88, 93: loadAndStore from line 129 *)
  | Get_Delete (key : Key) (mEntry : nat)                      (* lines 90, 94, 102 *)
  | Get_go (key : Key) (mEntry : nat)                          (* line 97 *)
  | Get_close (mEntry : nat)                                   (* line 105 *)
  | Get_return (mEntry : nat)                                  (* line 107 *)
  | Get_returned (mEntry : nat) (v : T) (e : option error)     (* Get has returned (v, e) *)
  | refresh_load (key : Key)                                   (* line 98: loadAndStore to line 128 *)
  | refresh_store (key : Key) (res : T) (e : option error)     (* line 98: loadAndStore from line 129 *)
  | refresh_Delete (key : Key)                                 (* line 99 *)
  | refresh_done.

(** A call [s.Get(ctx, key)] starts at line 75. *)
Definition Get (ctx : Context) (key : Key) : Goroutine := Get_LoadOrStore ctx key.

Record State : Type := mkState {
  world : World;
  entries : list mapEntry;
  inprogressMap : gmap string nat;
  goroutines : list Goroutine;
}.

(** [mEntry.value, mEntry.err = v, e] *)
Definition assign (mEntry : nat) (v : T) (e : option error)
    (es : list mapEntry) : list mapEntry :=
  alter (λ r, mkMapEntry (lockChannel r) v e) mEntry es.

(** [close(mEntry.lockChannel)] *)
Definition close (mEntry : nat) (es : list mapEntry) : list mapEntry :=
  alter (λ r, mkMapEntry true (value r) (err r)) mEntry es.

Section machine.
Variable s : StaleableCache.

(** What one goroutine does next to the shared state: its next
    program point, the new world, records and table, and the
    goroutines it starts.  [None] when it has finished, when it is
    blocked on a channel that is not closed yet, or when it would
    panic (a nil record, closing a closed channel). *)
Definition exec (g : Goroutine) (w : World) (es : list mapEntry)
    (m : gmap string nat)
    : option (Goroutine * World * list mapEntry * gmap string nat * list Goroutine) :=
  match g with
  | Get_LoadOrStore ctx key =>
      let stringKey := getCacheKey key in
      match m !! stringKey with
      | Some mEntry =>
          (* inProgress: the record passed to LoadOrStore is dropped *)
          Some (Get_receive mEntry, w, es, m, [])
      | None =>
          let mEntry := length es in
          Some (Get_GetWithTTL ctx key mEntry, w,
                es ++ [mkMapEntry false zero None],
                <[stringKey:=mEntry]> m, [])
      end
  | Get_receive mEntry =>
      match es !! mEntry with
      | Some r =>
          if lockChannel r
          then Some (Get_returned mEntry (value r) (err r), w, es, m, [])
          else None
      | None => None
      end
  | Get_GetWithTTL ctx key mEntry =>
      let '((object, ttl, err), w) := GetWithTTL s ctx key w in
      let es := assign mEntry object err es in
      let next :=
        match err with
        | Some e =>
            if is_NotFound_pointer e then Get_load ctx key mEntry
            else Get_Delete key mEntry
        | None =>
            if bool_decide (Duration.add ttl (minimumTTL s) < 0)
            then Get_load ctx key mEntry
            else if bool_decide (ttl < 0) then Get_go key mEntry
            else Get_Delete key mEntry
        end in
      Some (next, w, es, m, [])
  | Get_load ctx key mEntry =>
      let '((res, err, write), w) := loadAndStore_load s ctx key w in
      if write : bool
      then Some (Get_store ctx key mEntry res err, w, es, m, [])
      else Some (Get_Delete key mEntry, w, assign mEntry res err es, m, [])
  | Get_store ctx key mEntry res err =>
      let '((res, err), w) := loadAndStore_store s ctx key res err w in
      Some (Get_Delete key mEntry, w, assign mEntry res err es, m, [])
  | Get_Delete key mEntry =>
      Some (Get_close mEntry, w, es, delete (getCacheKey key) m, [])
  | Get_go key mEntry =>
      Some (Get_close mEntry, w, es, m, [refresh_load key])
  | Get_close mEntry =>
      match es !! mEntry with
      | Some r =>
          if lockChannel r then None
          else Some (Get_return mEntry, w, close mEntry es, m, [])
      | None => None
      end
  | Get_return mEntry =>
      match es !! mEntry with
      | Some r => Some (Get_returned mEntry (value r) (err r), w, es, m, [])
      | None => None
      end
  | Get_returned _ _ _ => None
  | refresh_load key =>
      let '((res, err, write), w) := loadAndStore_load s Background key w in
      if write : bool
      then Some (refresh_store key res err, w, es, m, [])
      else Some (refresh_Delete key, w, es, m, [])
  | refresh_store key res err =>
      let '(_, w) := loadAndStore_store s Background key res err w in
      Some (refresh_Delete key, w, es, m, [])
  | refresh_Delete key =>
      Some (refresh_done, w, es, delete (getCacheKey key) m, [])
  | refresh_done => None
  end.

(** One step of goroutine [i] of the pool; [None] when there is no
    such goroutine or it cannot step. *)
Definition step (i : nat) (st : State) : option State :=
  match goroutines st !! i with
  | None => None
  | Some g =>
      match exec g (world st) (entries st) (inprogressMap st) with
      | Some (g', w, es, m, started) =>
          Some (mkState w es m (<[i:=g']> (goroutines st) ++ started))
      | None => None
      end
  end.

(** Goroutine [i] alone, for at most [n] steps. *)
Fixpoint run_goroutine (n : nat) (i : nat) (st : State) : State :=
  match n with
  | O => st
  | S n =>
      match step i st with
      | Some st' => run_goroutine n i st'
      | None => st
      end
  end.

(** The same on the goroutine's own program point: what it does to
    the shared state in at most [n] steps when nothing else runs,
    with the goroutines it starts added to [started]. *)
Fixpoint exec_n (n : nat) (g : Goroutine) (w : World) (es : list mapEntry)
    (m : gmap string nat) (started : list Goroutine)
    : Goroutine * World * list mapEntry * gmap string nat * list Goroutine :=
  match n with
  | O => (g, w, es, m, started)
  | S n =>
      match exec g w es m with
      | Some (g', w', es', m', new) => exec_n n g' w' es' m' (started ++ new)
      | None => (g, w, es, m, started)
      end
  end.

(** What the first caller for a key gets out of [Get] when nothing
    else runs: the outcome of each branch of lines 82-107. *)
Definition Get_first_arrival (ctx : Context) (key : Key) (w : World)
    (es : list mapEntry) (m : gmap string nat)
    : Goroutine * World * list mapEntry * gmap string nat * list Goroutine :=
  let mEntry := length es in
  let '((object, ttl, oe), w1) := GetWithTTL s ctx key w in
  let reload :=
    let '((res, e), w2) := loadAndStore s ctx key w1 in
    (Get_returned mEntry res e, w2, es ++ [mkMapEntry true res e], m, []) in
  let serve := (Get_returned mEntry object oe, w1,
                es ++ [mkMapEntry true object oe]) in
  match oe with
  | Some e => if is_NotFound_pointer e then reload else (serve, m, [])
  | None =>
      if bool_decide (Duration.add ttl (minimumTTL s) < 0) then reload
      else if bool_decide (ttl < 0)
           then (serve, <[getCacheKey key:=mEntry]> m, [refresh_load key])
           else (serve, m, [])
  end.

(** The state in which goroutine [i] of [st] has returned [(v, e)]
    from [Get] as the first arrival for its key: its record is the
    next one allocated, closed and holding the pair; the world, the
    table and the goroutines started are as given. *)
Definition returned_from_Get (st : State) (i : nat) (v : T) (e : option error)
    (w : World) (m : gmap string nat) (started : list Goroutine) : State :=
  mkState w (entries st ++ [mkMapEntry true v e]) m
    (<[i:=Get_returned (length (entries st)) v e]> (goroutines st) ++ started).

(** The world after the read of lines 137-138. *)
Definition after_read (w : World) (ctx : Context) (key : Key) (v : T)
    (e : Env) : World :=
  mkWorld e (trace w ++ [CallGetWithTTL ctx key; Println v]).

(** A schedule names the goroutine to step next; a goroutine that
    cannot step is skipped. *)
Fixpoint run (schedule : list nat) (st : State) : State :=
  match schedule with
  | [] => st
  | i :: schedule =>
      match step i st with
      | Some st' => run schedule st'
      | None => run schedule st
      end
  end.

Definition steps (st st' : State) : Prop := ∃ i, step i st = Some st'.

(** The callers present at the start, nothing in flight. *)
Definition initial (w : World) (calls : list (Context * Key)) : State :=
  mkState w [] ∅ ((λ c, Get c.1 c.2) <$> calls).

Definition reachable (w : World) (calls : list (Context * Key)) (st : State) : Prop :=
  rtc steps (initial w calls) st.


End machine.

(** *** Roles of a goroutine in the single-flight protocol *)

(** The record a goroutine holds a pointer to. *)
Definition record_of (g : Goroutine) : option nat :=
  match g with
  | Get_receive l | Get_GetWithTTL _ _ l | Get_load _ _ l
  | Get_store _ _ l _ _ | Get_Delete _ l | Get_go _ l
  | Get_close l | Get_return l | Get_returned l _ _ => Some l
  | _ => None
  end.

(** The leader of record [l]: the goroutine that created it and has
    not closed its channel yet. *)
Definition leads (l : nat) (g : Goroutine) : nat :=
  match g with
  | Get_GetWithTTL _ _ l' | Get_load _ _ l' | Get_store _ _ l' _ _
  | Get_Delete _ l' | Get_go _ l' | Get_close l' =>
      if decide (l' = l) then 1 else 0
  | _ => 0
  end.

(** The goroutine that is to delete the table entry of [k]: the leader
    up to its [Delete] or its [go], and the refresh it starts. *)
Definition holds (k : string) (g : Goroutine) : nat :=
  match g with
  | Get_GetWithTTL _ key _ | Get_load _ key _ | Get_store _ key _ _ _
  | Get_Delete key _ | Get_go key _
  | refresh_load key | refresh_store key _ _ | refresh_Delete key =>
      if decide (getCacheKey key = k) then 1 else 0
  | _ => 0
  end.


(** What a goroutine at its program point relies on in the records. *)
Definition goroutine_ok (es : list mapEntry) (g : Goroutine) : Prop :=
  match g with
  | Get_receive l => (l < length es)%nat
  | Get_GetWithTTL _ _ l | Get_load _ _ l | Get_store _ _ l _ _
  | Get_Delete _ l | Get_go _ l | Get_close l =>
      ∃ r, es !! l = Some r ∧ lockChannel r = false
  | Get_return l => ∃ r, es !! l = Some r ∧ lockChannel r = true
  | Get_returned l v e => es !! l = Some (mkMapEntry true v e)
  | _ => True
  end.

(** The invariant of the single-flight protocol. *)
Record coalescing (st : State) : Prop := {
  goroutines_ok :
    ∀ i g, goroutines st !! i = Some g → goroutine_ok (entries st) g;
  table_in_range :
    ∀ k l, inprogressMap st !! k = Some l → (l < length (entries st))%nat;
  one_holder :
    ∀ k, tally (holds k) (goroutines st)
         = match inprogressMap st !! k with Some _ => 1%nat | None => 0%nat end;
  one_leader :
    ∀ l, (tally (leads l) (goroutines st) ≤ 1)%nat;
  records_used :
    ∀ l, (l < length (entries st))%nat →
         ∃ i g, goroutines st !! i = Some g ∧ record_of g = Some l;
  open_led :
    ∀ l r, entries st !! l = Some r → lockChannel r = false →
           (0 < tally (leads l) (goroutines st))%nat;
  table_led :
    ∀ i g l k, goroutines st !! i = Some g →
               (0 < leads l g)%nat → (0 < holds k g)%nat →
               inprogressMap st !! k = Some l;
}.

(** A goroutine that has nothing left to do. *)
Definition finished (g : Goroutine) : bool :=
  match g with
  | Get_returned _ _ _ | refresh_done => true
  | _ => false
  end.

(** A bound on the steps a goroutine and the goroutines it starts can
    still take. *)
Definition weight (g : Goroutine) : nat :=
  match g with
  | Get_LoadOrStore _ _ => 8
  | Get_receive _ => 1
  | Get_GetWithTTL _ _ _ => 7
  | Get_load _ _ _ => 5
  | Get_store _ _ _ _ _ => 4
  | Get_Delete _ _ => 3
  | Get_go _ _ => 6
  | Get_close _ => 2
  | Get_return _ => 1
  | Get_returned _ _ _ => 0
  | refresh_load _ => 3
  | refresh_store _ _ _ => 2
  | refresh_Delete _ => 1
  | refresh_done => 0
  end.

(** *** The specification's vocabulary *)

(** The calls to the underlying store's [Set] in a log. *)
Definition is_CallSet (e : Event) : nat :=
  match e with CallSet _ _ _ _ => 1 | _ => 0 end.

Definition Set_calls (tr : list Event) : nat := tally is_CallSet tr.

(** The expiration the underlying store resolves from the options of a
    logged [Set] call. *)
Definition received_expiration (e : Event) : option Duration :=
  match e with
  | CallSet _ _ _ options => store.Expiration <$> store.ApplyOptions options
  | _ => None
  end.

(** The caller-supplied expiration of [Set]'s options, and the resolved
    expiration of the specification: the caller's, or failing that the
    configured default [ttl]. *)
Definition supplied_expiration (options : list store.Option) : Duration :=
  default 0 (store.Expiration <$> store.ApplyOptions options).

Definition resolved_expiration (s : StaleableCache)
    (options : list store.Option) : Duration :=
  if decide (supplied_expiration options = 0) then refreshTTL s
  else supplied_expiration options.

(** The specification's staleness classes, for a logical remaining TTL
    [t] and a margin [m]. *)
Inductive Staleness : Type := FRESH | STALE | EXPIRED_OR_MISSING.

Definition classify (m t : Z) : Staleness :=
  if decide (0 <= t) then FRESH
  else if decide (- m <= t) then STALE
  else EXPIRED_OR_MISSING.

(** The class of a read of the underlying store that returned the
    stored TTL [stored] and the error [oe]: by the logical TTL when
    there is no error, [EXPIRED_OR_MISSING] when the store reports the
    key absent, none for any other error. *)
Definition staleness (m stored : Z) (oe : option error) : option Staleness :=
  match oe with
  | None => Some (classify m (stored - m))
  | Some e => if is_NotFound_pointer e then Some EXPIRED_OR_MISSING else None
  end.

(** Whether the reload procedure is to write: a load function is
    configured, it succeeds on this world, and the admission predicate,
    when configured, accepts the loaded value. *)
Definition admitted (s : StaleableCache) (ctx : Context) (key : Key)
    (w : World) : bool :=
  match loadFunc s with
  | None => false
  | Some f =>
      match f ctx key (env w) with
      | (_, Some _, _) => false
      | (res, None, _) =>
          match shouldCache s with
          | Some p => p key res
          | None => true
          end
      end
  end.











(** *** Calls and roles, counted *)

Definition is_CallGetWithTTL (e : Event) : nat :=
  match e with CallGetWithTTL _ _ => 1 | _ => 0 end.

Definition is_CallLoad (e : Event) : nat :=
  match e with CallLoad _ _ => 1 | _ => 0 end.

(** The reads of the underlying store and the calls of the load function
    in a log. *)
Definition GetWithTTL_calls (tr : list Event) : nat := tally is_CallGetWithTTL tr.
Definition Load_calls (tr : list Event) : nat := tally is_CallLoad tr.

(** A caller that has not reached the table yet: line 75 is before it. *)
Definition to_arrive (g : Goroutine) : nat :=
  match g with Get_LoadOrStore _ _ => 1 | _ => 0 end.

(** A leader that has its read of line 82 before it. *)
Definition to_read (g : Goroutine) : nat :=
  match g with Get_GetWithTTL _ _ _ => 1 | _ => 0 end.

(** A goroutine that has a call of [loadAndStore] before it: at line 88
    or 93, at line 97 for the goroutine it starts, or at line 98. *)
Definition to_load (g : Goroutine) : nat :=
  match g with
  | Get_load _ _ _ | Get_go _ _ | refresh_load _ => 1
  | _ => 0
  end.

(** A goroutine inside [loadAndStore] with line 129 before it. *)
Definition to_store (g : Goroutine) : nat :=
  match g with
  | Get_store _ _ _ _ _ | refresh_store _ _ _ => 1
  | _ => 0
  end.

(** A goroutine on the background path: the leader at line 97 and the
    goroutine it starts. *)
Definition refreshes (g : Goroutine) : bool :=
  match g with
  | Get_go _ _ | refresh_load _ | refresh_store _ _ _
  | refresh_Delete _ | refresh_done => true
  | _ => false
  end.

(** The accounts of a run from the world [w0] with the callers
    [calls]: every record is read for once, by its leader; every load
    follows a read, and every write a load. *)
Definition accounts (w0 : World) (calls : list (Context * Key))
    (st : State) : Prop :=
  (length (entries st) + tally to_arrive (goroutines st) ≤ length calls)%nat
  ∧ (GetWithTTL_calls (trace (world st)) + tally to_read (goroutines st)
     = GetWithTTL_calls (trace w0) + length (entries st))%nat
  ∧ (Load_calls (trace (world st)) + tally to_load (goroutines st)
       + GetWithTTL_calls (trace w0)
     ≤ Load_calls (trace w0) + GetWithTTL_calls (trace (world st)))%nat
  ∧ (Set_calls (trace (world st)) + tally to_store (goroutines st)
       + Load_calls (trace w0)
     ≤ Set_calls (trace w0) + Load_calls (trace (world st)))%nat.


(** *** The exported options of [NewStaleable], lines 37-59 *)

Inductive ExportedOption : Type :=
  | OptTTL (ttl : Duration)
  | OptMaxStaleCacheTTL (ttl : Duration)
  | OptLoadFunction (f : LoadFunction)
  | OptPredicate (f : ShouldCachePredicate).

Definition exported (o : ExportedOption) : StaleableCacheOption :=
  match o with
  | OptTTL ttl => WithTTL ttl
  | OptMaxStaleCacheTTL ttl => WithMaxStaleCacheTTL ttl
  | OptLoadFunction f => WithStaleCacheLoadFunction f
  | OptPredicate f => WithStaleCachePredicate f
  end.

(** The last option of each kind in a list, [d] when there is none. *)
Definition last_TTL (d : Duration) (opts : list ExportedOption) : Duration :=
  fold_left (λ a o, match o with OptTTL ttl => ttl | _ => a end) opts d.
Definition last_MaxStaleCacheTTL (d : Duration) (opts : list ExportedOption)
    : Duration :=
  fold_left (λ a o, match o with OptMaxStaleCacheTTL ttl => ttl | _ => a end) opts d.
Definition last_LoadFunction (d : option LoadFunction)
    (opts : list ExportedOption) : option LoadFunction :=
  fold_left (λ a o, match o with OptLoadFunction f => Some f | _ => a end) opts d.
Definition last_Predicate (d : option ShouldCachePredicate)
    (opts : list ExportedOption) : option ShouldCachePredicate :=
  fold_left (λ a o, match o with OptPredicate f => Some f | _ => a end) opts d.

End cache.

(** ** Package [store_wrappers], file [store_wrappers/stale_cache_wrapper.go]

    The wrapper at the level of stores: the same margin arithmetic, no
    default expiration, no reload.  [any] is [T] here, with [nil] for
    [zero]; the underlying [store.StoreInterface] is taken through its
    [GetWithTTL] and [Set]. *)

Module store_wrappers.
Section store_wrappers.
Context {model : Model}.
Local Open Scope Z_scope.

Record StaleCacheStore : Type := mkStaleCacheStore {
  cache : SetterCacheInterface;
  minimumTTL : Duration;
}.

(** [NewStaleCache], lines 22-27. *)
Definition NewStaleCache (underlyingCache : SetterCacheInterface)
    (maxStaleCacheTTL : Duration) : StaleCacheStore :=
  mkStaleCacheStore underlyingCache maxStaleCacheTTL.

(** [GetWithTTL] of [StaleCacheStore], lines 36-44. *)
Definition GetWithTTL (s : StaleCacheStore) (ctx : Context) (key : Key)
    : M (T * Duration * option error) :=
  _ ← emit (CallGetWithTTL ctx key);
  '(value, storeCacheDuration, err) ← call (si_GetWithTTL (cache s) ctx key);
  match err with
  | Some e => mret (zero, 0, Some e)
  | None =>
      let storeCacheDuration := Duration.sub storeCacheDuration (minimumTTL s) in
      mret (value, storeCacheDuration, None)
  end.

(** The expiration [Set] of [StaleCacheStore] appends, lines 48-54. *)
Definition Set_expiration (s : StaleCacheStore) (options : list store.Option)
    : Duration :=
  let opts := store.ApplyOptions options in
  let expiration := 0 in
  let expiration :=
    match opts with
    | Some o => store.Expiration o
    | None => expiration
    end in
  Duration.add (minimumTTL s) expiration.

(** [Set] of [StaleCacheStore], lines 47-56. *)
Definition Set_ (s : StaleCacheStore) (ctx : Context) (key : Key) (value : T)
    (options : list store.Option) : M (option error) :=
  let options := options ++ [store.WithExpiration (Set_expiration s options)] in
  _ ← emit (CallSet ctx key value options);
  call (si_Set (cache s) ctx key value options).

End store_wrappers.
End store_wrappers.

(** ** A test double

    The mock of the tests, for running the definitions on concrete
    inputs: the underlying store answers every read with [answer] and
    every write with [written]; the load function answers [loaded]; each
    call is counted in the environment. *)

Inductive TestContext : Type :=
  | background
  | request.

Definition test_model : Model := {|
  T := string;
  zero := "";
  Context := TestContext;
  Background := background;
  Env := nat;
  Obj := Empty_set;
  checksum := λ o, match o with end;
|}.

Section test_double.
#[local] Existing Instance test_model.

Definition mock_store (answer : string * Duration * option error)
  (written : option error) : SetterCacheInterface :=
@Build_SetterCacheInterface test_model
  (λ _ _ (n : nat), (answer, S n))
  (λ _ _ _ _ (n : nat), (written, S n)).

Definition mock_load (loaded : string * option error)
  : LoadFunction :=
λ _ _ (n : nat), (loaded, S n).

Definition my_key : Key := KString "my-key".

(** [NewStaleable(ic, WithTTL(1s), WithMaxStaleCacheTTL(1m),
  WithStaleCacheLoadFunction(loadFunc))] over a store that holds
  ["my-cache-value"] with the stored TTL [ttl]. *)
Definition staleable_holding (ttl : Duration) : StaleableCache :=
NewStaleable (mock_store ("my-cache-value", ttl, None) None)
  [WithTTL Duration.Second; WithMaxStaleCacheTTL Duration.Minute;
   WithStaleCacheLoadFunction (mock_load ("updated-cache-value", None))].

(** [NewStaleable(ic, WithMaxStaleCacheTTL(5s))] over a store that
  answers reads with [answer]. *)
Definition staleable_answering (answer : string * Duration * option error)
  : StaleableCache :=
NewStaleable (mock_store answer None)
  [WithMaxStaleCacheTTL (5 * Duration.Second)%Z].

(** [NewStaleable(ic, WithMaxStaleCacheTTL(3s), ...)] over a store that
  reports the key absent and answers writes with [written], with the
  load function [loadFunc] when there is one. *)
Definition staleable_missing (written : option error)
  (loadFunc : option LoadFunction) : StaleableCache :=
NewStaleable (mock_store ("", 0%Z, Some NotFoundPtr) written)
  (WithMaxStaleCacheTTL (3 * Duration.Second)%Z
   :: match loadFunc with
      | Some f => [WithStaleCacheLoadFunction f]
      | None => []
      end).

Definition empty_world : World := @mkWorld test_model 0%nat [].

(** [n] callers of [Get(ctx, "my-key")]. *)
Definition callers (n : nat) : State :=
initial empty_world (replicate n (request, my_key)).

End test_double.

(** ** Facts *)

Section properties.
Context {model : Model}.
Local Open Scope Z_scope.

(** *** 64-bit arithmetic *)

Lemma wrap_valid z : Duration.valid z → Duration.wrap z = z.
Proof.
  unfold Duration.valid, Duration.wrap, Duration.min_int64, Duration.max_int64.
  intros Hz. rewrite Z.mod_small; lia.
Qed.

Lemma wrap_is_valid z : Duration.valid (Duration.wrap z).
Proof.
  unfold Duration.valid, Duration.wrap, Duration.min_int64, Duration.max_int64.
  pose proof (Z.mod_pos_bound (z + 2 ^ 63) (2 ^ 64)). lia.
Qed.

Lemma wrap_add_l a b : Duration.wrap (Duration.wrap a + b) = Duration.wrap (a + b).
Proof.
  unfold Duration.wrap. f_equal.
  replace ((a + 2 ^ 63) `mod` 2 ^ 64 - 2 ^ 63 + b + 2 ^ 63)
    with ((a + 2 ^ 63) `mod` 2 ^ 64 + b) by lia.
  rewrite Zplus_mod_idemp_l. f_equal. lia.
Qed.

(** [ttl + s.minimumTTL] at line 91 gives back the stored TTL. *)
Lemma add_sub_cancel t m :
  Duration.valid t → Duration.add (Duration.sub t m) m = t.
Proof.
  intros Ht. unfold Duration.add, Duration.sub.
  rewrite wrap_add_l. replace (t - m + m) with t by lia. by apply wrap_valid.
Qed.

Lemma sub_exact t m :
  Duration.valid t → Duration.valid m → 0 <= m → Duration.min_int64 <= t - m →
  Duration.sub t m = t - m.
Proof.
  unfold Duration.sub. intros Ht Hm H0 Hlo. apply wrap_valid.
  unfold Duration.valid in *. lia.
Qed.

Lemma add_exact a b :
  Duration.valid (a + b) → Duration.add a b = a + b.
Proof. apply wrap_valid. Qed.

Lemma add_injective m a b :
  Duration.valid a → Duration.valid b →
  Duration.add m a = Duration.add m b → a = b.
Proof.
  unfold Duration.add, Duration.wrap, Duration.valid,
    Duration.min_int64, Duration.max_int64.
  intros Ha Hb Heq.
  assert (Hmod : (m + a + 2 ^ 63) `mod` 2 ^ 64 = (m + b + 2 ^ 63) `mod` 2 ^ 64) by lia.
  pose proof (Z.div_mod (m + a + 2 ^ 63) (2 ^ 64)).
  pose proof (Z.div_mod (m + b + 2 ^ 63) (2 ^ 64)).
  lia.
Qed.

(** *** Options *)

Lemma ApplyOptions_snoc options o :
  store.ApplyOptions (options ++ [o]) = o <$> store.ApplyOptions options.
Proof. unfold store.ApplyOptions. by rewrite fold_left_app. Qed.

Lemma received_after_WithExpiration options d :
  store.Expiration <$> store.ApplyOptions (options ++ [store.WithExpiration d]) = Some d.
Proof. by rewrite ApplyOptions_snoc. Qed.

Lemma tally_app {A} (f : A → nat) l1 l2 :
  tally f (l1 ++ l2) = (tally f l1 + tally f l2)%nat.
Proof. induction l1 as [|x l1 IH]; simpl; [done | rewrite IH; lia]. Qed.

Lemma tally_insert {A} (f : A → nat) l i x y :
  l !! i = Some x →
  (tally f (<[i:=y]> l) + f x = tally f l + f y)%nat.
Proof.
  revert i. induction l as [|z l IH]; intros [|i] Hi; simplify_eq/=; [lia|].
  specialize (IH i Hi). lia.
Qed.

Lemma tally_lookup_le {A} (f : A → nat) l i x :
  l !! i = Some x → (f x ≤ tally f l)%nat.
Proof.
  revert i. induction l as [|z l IH]; intros [|i] Hi; simplify_eq/=; [lia|].
  specialize (IH i Hi). lia.
Qed.

Lemma tally_zero {A} (f : A → nat) l :
  (∀ i x, l !! i = Some x → f x = 0%nat) → tally f l = 0%nat.
Proof.
  induction l as [|z l IH]; intros Hz; simpl; [done|].
  rewrite (Hz 0%nat z eq_refl), IH; [done|].
  intros i x Hi. by apply (Hz (S i)).
Qed.


(** With a tally of at most one, the element that counts is unique. *)
Lemma tally_unique {A} (f : A → nat) l i j x y (z : A) :
  (tally f l ≤ 1)%nat → f z = 0%nat →
  l !! i = Some x → l !! j = Some y →
  (0 < f x)%nat → (0 < f y)%nat → i = j.
Proof.
  intros Hone Hz Hi Hj Hx Hy.
  destruct (decide (i = j)) as [|Hne]; [done|exfalso].
  pose proof (tally_insert f l i x z Hi) as Hins.
  assert (Hj' : <[i:=z]> l !! j = Some y) by (by rewrite list_lookup_insert_ne).
  pose proof (tally_lookup_le f _ j y Hj'). lia.
Qed.

Section facts.
Variable s : StaleableCache.

Lemma Set_expiration_resolved options :
  Set_expiration s options
  = Duration.add (minimumTTL s) (resolved_expiration s options).
Proof. reflexivity. Qed.

Lemma Set_unfold ctx key v options w :
  Set_ s ctx key v options w =
    let options' := options ++ [store.WithExpiration (Set_expiration s options)] in
    let '(r, e) := si_Set (cache s) ctx key v options' (env w) in
    (r, mkWorld e (trace w ++ [CallSet ctx key v options'])).
Proof. reflexivity. Qed.

Lemma GetWithTTL_unfold ctx key w :
  GetWithTTL s ctx key w =
    let '((v, t, oe), e) := si_GetWithTTL (cache s) ctx key (env w) in
    let w' := mkWorld e ((trace w ++ [CallGetWithTTL ctx key]) ++ [Println v]) in
    match oe with
    | Some err => ((zero, 0, Some err), w')
    | None => ((v, Duration.sub t (minimumTTL s), None), w')
    end.
Proof.
  unfold GetWithTTL, underlying_GetWithTTL, emit, call, mbind, M_bind; simpl.
  destruct (si_GetWithTTL _ _ _ _) as [[[v t] [err|]] e]; reflexivity.
Qed.

(** C2. For a stored remaining TTL [t] that the underlying store
    returns without error and a margin [m >= 0], [GetWithTTL] returns
    the same value, the logical TTL [t - m] and a nil error: the
    subtraction is Go's on [time.Duration], and it is the exact
    difference, negative or not, whenever that is a [Duration] at all.
    When the underlying store returns an error, the error is returned
    and the margin is not applied. *)
Theorem GetWithTTL_logical_ttl ctx key w v t oe e :
  si_GetWithTTL (cache s) ctx key (env w) = ((v, t, oe), e) →
  Duration.valid t → Duration.valid (minimumTTL s) → 0 <= minimumTTL s →
  match oe with
  | None =>
      (GetWithTTL s ctx key w).1 = (v, Duration.sub t (minimumTTL s), None)
      ∧ (Duration.min_int64 <= t - minimumTTL s →
         (GetWithTTL s ctx key w).1 = (v, t - minimumTTL s, None))
  | Some err => (GetWithTTL s ctx key w).1 = (zero, 0, Some err)
  end.
Proof.
  intros Hread Ht Hm H0. rewrite GetWithTTL_unfold, Hread.
  destruct oe as [err|]; simpl; [done|].
  split; [done|]. intros Hlo. by rewrite sub_exact.
Qed.

(** C10. Whenever the underlying store's [GetWithTTL] returns a
    non-nil error, the wrapper's [GetWithTTL] returns the zero value
    of [T], the duration 0 and that error, whatever value and TTL
    came with it. *)
Theorem GetWithTTL_error_zero ctx key w v t err e :
  si_GetWithTTL (cache s) ctx key (env w) = ((v, t, Some err), e) →
  (GetWithTTL s ctx key w).1 = (zero, 0, Some err).
Proof. intros Hread. by rewrite GetWithTTL_unfold, Hread. Qed.


(** C5. For every call to [Set], the underlying store is called once,
    with options from which it resolves the expiration
    [minimumTTL + resolved], where [resolved] is the caller-supplied
    expiration or, failing that, the default [refreshTTL]; the sum is
    Go's on [time.Duration], exact whenever it is a [Duration].  With
    expiration 1s under margin 5s the store receives 6s. *)
Theorem Set_forwards_margin_plus_resolved ctx key v options w :
  ∃ options',
    trace (Set_ s ctx key v options w).2 = trace w ++ [CallSet ctx key v options']
    ∧ Set_ s ctx key v options w
      = (let '(r, e) := si_Set (cache s) ctx key v options' (env w) in
         (r, mkWorld e (trace w ++ [CallSet ctx key v options'])))
    ∧ received_expiration (CallSet ctx key v options')
      = Some (Duration.add (minimumTTL s) (resolved_expiration s options))
    ∧ (Duration.valid (minimumTTL s + resolved_expiration s options) →
       received_expiration (CallSet ctx key v options')
       = Some (minimumTTL s + resolved_expiration s options))
    ∧ (minimumTTL s = 5 * Duration.Second →
       options = [store.WithExpiration (1 * Duration.Second)] →
       received_expiration (CallSet ctx key v options')
       = Some (6 * Duration.Second)).
Proof.
  exists (options ++ [store.WithExpiration (Set_expiration s options)]).
  assert (Hrecv :
    received_expiration
      (CallSet ctx key v (options ++ [store.WithExpiration (Set_expiration s options)]))
    = Some (Duration.add (minimumTTL s) (resolved_expiration s options))).
  { unfold received_expiration.
    by rewrite received_after_WithExpiration, Set_expiration_resolved. }
  rewrite Hrecv, Set_unfold. cbv zeta.
  destruct (si_Set _ _ _ _ _ _) as [r e]. cbn [snd trace].
  repeat split; try done.
  - intros Hv. by rewrite add_exact.
  - intros Hm ->. rewrite Hm. reflexivity.
Qed.


Lemma loadAndStore_load_unfold ctx key w :
  loadAndStore_load s ctx key w =
    match loadFunc s with
    | None => ((zero, None, false), w)
    | Some f =>
        let '((res, oe), e) := f ctx key (env w) in
        ((res, oe, admitted s ctx key w),
         mkWorld e (trace w ++ [CallLoad ctx key]))
    end.
Proof.
  unfold loadAndStore_load, admitted.
  destruct (loadFunc s) as [f|]; [|done].
  unfold call_loadFunc, emit, call, mbind, M_bind; simpl.
  destruct (f ctx key (env w)) as [[res [e1|]] e]; [done|].
  destruct (shouldCache s) as [p|]; [|done].
  by destruct (p key res).
Qed.

Lemma admitted_no_error ctx key w f res oe e :
  loadFunc s = Some f → f ctx key (env w) = ((res, oe), e) →
  admitted s ctx key w = true → oe = None.
Proof.
  unfold admitted. intros -> ->. by destruct oe.
Qed.

Lemma loadAndStore_unfold ctx key w :
  loadAndStore s ctx key w =
    match loadFunc s with
    | None => ((zero, None), w)
    | Some f =>
        let '((res, oe), e) := f ctx key (env w) in
        let w1 := mkWorld e (trace w ++ [CallLoad ctx key]) in
        if admitted s ctx key w
        then ((res, oe), (Set_ s ctx key res [] w1).2)
        else ((res, oe), w1)
    end.
Proof.
  unfold loadAndStore, mbind, M_bind. rewrite loadAndStore_load_unfold.
  destruct (loadFunc s) as [f|]; [|done].
  destruct (f ctx key (env w)) as [[res oe] e].
  destruct (admitted s ctx key w); [|done].
  unfold loadAndStore_store, mbind, M_bind.
  by destruct (Set_ _ _ _ _ _ _).
Qed.

Lemma Set_calls_Set_ ctx key v options w :
  Set_calls (trace (Set_ s ctx key v options w).2) = S (Set_calls (trace w)).
Proof.
  rewrite Set_unfold. cbv zeta. destruct (si_Set _ _ _ _ _ _) as [r e]. simpl.
  unfold Set_calls. rewrite tally_app. simpl. lia.
Qed.

(** C6. In the reload procedure the underlying store's [Set] is
    invoked, once, if and only if a load function is configured, the
    load succeeds and the admission predicate, when configured,
    accepts the loaded value.  A failed load is returned as it is and
    nothing is written; a rejected value is returned with a nil error
    and nothing is written: the store is as the load function left
    it.  An admitted value is written: the store's [Set] is called on
    the state the load function left, with the key, the loaded value
    and the default expiration; the store is then as that call left
    it, whatever error it returned, and the loaded value is returned
    with a nil error.  Without a load function nothing is called at
    all. *)
Theorem loadAndStore_writes_iff_admitted ctx key w :
  let w' := (loadAndStore s ctx key w).2 in
  (Set_calls (trace w') = S (Set_calls (trace w)) ↔ admitted s ctx key w = true)
  ∧ (Set_calls (trace w') = Set_calls (trace w) ↔ admitted s ctx key w = false)
  ∧ (∀ f res err e,
       loadFunc s = Some f → f ctx key (env w) = ((res, Some err), e) →
       loadAndStore s ctx key w
       = ((res, Some err), mkWorld e (trace w ++ [CallLoad ctx key])))
  ∧ (∀ f p res e,
       loadFunc s = Some f → f ctx key (env w) = ((res, None), e) →
       shouldCache s = Some p → p key res = false →
       loadAndStore s ctx key w
       = ((res, None), mkWorld e (trace w ++ [CallLoad ctx key])))
  ∧ (∀ f res e werr e',
       loadFunc s = Some f → f ctx key (env w) = ((res, None), e) →
       (∀ p, shouldCache s = Some p → p key res = true) →
       si_Set (cache s) ctx key res
         [store.WithExpiration (Set_expiration s [])] e = (werr, e') →
       loadAndStore s ctx key w
       = ((res, None),
          mkWorld e'
            (trace w
             ++ [CallLoad ctx key;
                 CallSet ctx key res
                   [store.WithExpiration (Set_expiration s [])]])))
  ∧ (loadFunc s = None → loadAndStore s ctx key w = ((zero, None), w)).
Proof.
  cbv zeta.
  assert (Hwritten : ∀ f res e werr e',
    loadFunc s = Some f → f ctx key (env w) = ((res, None), e) →
    (∀ p, shouldCache s = Some p → p key res = true) →
    si_Set (cache s) ctx key res
      [store.WithExpiration (Set_expiration s [])] e = (werr, e') →
    loadAndStore s ctx key w
    = ((res, None),
       mkWorld e'
         (trace w
          ++ [CallLoad ctx key;
              CallSet ctx key res [store.WithExpiration (Set_expiration s [])]]))).
  { intros f res e werr e' Hf Hcall Hp Hset.
    assert (Hadm : admitted s ctx key w = true).
    { unfold admitted. rewrite Hf, Hcall.
      destruct (shouldCache s) as [p|] eqn:Hsc; [by apply Hp|done]. }
    rewrite loadAndStore_unfold, Hf, Hcall. cbv zeta. rewrite Hadm.
    rewrite Set_unfold. cbn [env trace app]. cbv zeta. rewrite Hset.
    cbn [snd]. by rewrite <- (assoc_L (++)). }
  assert (Hnone : loadFunc s = None → loadAndStore s ctx key w = ((zero, None), w)).
  { intros Hf. by rewrite loadAndStore_unfold, Hf. }
  assert (Hload : Set_calls (trace w ++ [CallLoad ctx key])
                  = Set_calls (trace w)).
  { unfold Set_calls. rewrite tally_app. simpl. lia. }
  split; [|split; [|split; [|split; [|split; [exact Hwritten|exact Hnone]]]]];
    clear Hwritten Hnone; rewrite loadAndStore_unfold.
  1,2: split.
  - destruct (loadFunc s) as [f|] eqn:Hf; simpl.
    + destruct (f ctx key (env w)) as [[res oe] e].
      destruct (admitted s ctx key w); [done|]. simpl. rewrite Hload. lia.
    + unfold admitted. rewrite Hf. lia.
  - intros Ha. destruct (loadFunc s) as [f|] eqn:Hf; simpl.
    + destruct (f ctx key (env w)) as [[res oe] e]. rewrite Ha.
      simpl. rewrite Set_calls_Set_. simpl. by rewrite Hload.
    + unfold admitted in Ha. by rewrite Hf in Ha.
  - destruct (loadFunc s) as [f|] eqn:Hf; simpl.
    + destruct (f ctx key (env w)) as [[res oe] e].
      destruct (admitted s ctx key w); [|done]. simpl.
      rewrite Set_calls_Set_. simpl. rewrite Hload. lia.
    + unfold admitted. by rewrite Hf.
  - intros Ha. destruct (loadFunc s) as [f|] eqn:Hf; simpl; [|done].
    destruct (f ctx key (env w)) as [[res oe] e]. rewrite Ha.
    simpl. by rewrite Hload.
  - intros f res err e Hf Hcall. rewrite Hf, Hcall.
    unfold admitted. by rewrite Hf, Hcall.
  - intros f p res e Hf Hcall Hp Hrej. rewrite Hf, Hcall.
    unfold admitted. by rewrite Hf, Hcall, Hp, Hrej.
Qed.

(** *** One goroutine at a time *)

Lemma assign_last es r v e :
  assign (length es) v e (es ++ [r]) = es ++ [mkMapEntry (lockChannel r) v e].
Proof.
  unfold assign. replace (length es) with (length es + 0)%nat by lia.
  by rewrite alter_app_r.
Qed.

Lemma close_last es r :
  close (length es) (es ++ [r]) = es ++ [mkMapEntry true (value r) (err r)].
Proof.
  unfold close. replace (length es) with (length es + 0)%nat by lia.
  by rewrite alter_app_r.
Qed.

Lemma lookup_last (es : list mapEntry) r : (es ++ [r]) !! length es = Some r.
Proof. by rewrite lookup_app_r, Nat.sub_diag by lia. Qed.

(** Running goroutine [i] alone in the pool is running its program
    point alone. *)
Lemma run_goroutine_exec_n n : ∀ i g w es m gs started,
  (i < length gs)%nat →
  run_goroutine s n i (mkState w es m (<[i:=g]> gs ++ started)) =
    let '(g', w', es', m', started') := exec_n s n g w es m started in
    mkState w' es' m' (<[i:=g']> gs ++ started').
Proof.
  induction n as [|n IH]; intros i g w es m gs started Hi; [done|].
  simpl. unfold step. cbn [goroutines world entries inprogressMap].
  rewrite lookup_app_l by (by rewrite length_insert).
  rewrite list_lookup_insert_eq by done.
  destruct (exec s g w es m) as [[[[[g' w'] es'] m'] new]|]; [|done].
  rewrite insert_app_l by (by rewrite length_insert).
  rewrite list_insert_insert_eq, <- (assoc_L (++)).
  by apply IH.
Qed.

Lemma run_goroutine_alone n i g st :
  goroutines st !! i = Some g →
  run_goroutine s n i st =
    let '(g', w', es', m', started) :=
      exec_n s n g (world st) (entries st) (inprogressMap st) [] in
    mkState w' es' m' (<[i:=g']> (goroutines st) ++ started).
Proof.
  intros Hg. destruct st as [w es m gs]. simpl in *.
  rewrite <- (run_goroutine_exec_n n i g w es m gs []) by (by eapply lookup_lt_Some).
  by rewrite app_nil_r, list_insert_id.
Qed.

Lemma exec_n_reload ctx key w es m v0 e0 :
  m !! getCacheKey key = None →
  exec_n s 5 (Get_load ctx key (length es)) w (es ++ [mkMapEntry false v0 e0])
    (<[getCacheKey key:=length es]> m) [] =
    let '((res, e), w2) := loadAndStore s ctx key w in
    (Get_returned (length es) res e, w2, es ++ [mkMapEntry true res e], m, []).
Proof.
  intros Hm. unfold loadAndStore, mbind, M_bind.
  cbn [exec_n exec].
  destruct (loadAndStore_load s ctx key w) as [[[res e] [|]] w1].
  - cbn [exec_n exec].
    destruct (loadAndStore_store s ctx key res e w1) as [[res' e'] w2].
    cbn [exec_n exec]. rewrite assign_last, lookup_last. cbn [lockChannel].
    rewrite close_last. cbn [exec_n exec value err]. rewrite lookup_last.
    cbn [value err]. by rewrite delete_insert_eq, delete_id.
  - cbn [exec_n exec]. rewrite assign_last, lookup_last. cbn [lockChannel].
    rewrite close_last. cbn [exec_n exec value err]. rewrite lookup_last.
    cbn [value err mret M_ret]. by rewrite delete_insert_eq, delete_id.
Qed.

Lemma exec_n_returned n l v e w es m started :
  exec_n s n (Get_returned l v e) w es m started
  = (Get_returned l v e, w, es, m, started).
Proof. by destruct n. Qed.

Lemma exec_n_step n g w es m started g' w' es' m' new :
  exec s g w es m = Some (g', w', es', m', new) →
  exec_n s (S n) g w es m started = exec_n s n g' w' es' m' (started ++ new).
Proof. intros Hx. simpl. by rewrite Hx. Qed.

Lemma exec_n_serve n key w es m v e started :
  exec_n s (3 + n) (Get_Delete key (length es)) w
    (es ++ [mkMapEntry false v e]) m started =
    (Get_returned (length es) v e, w, es ++ [mkMapEntry true v e],
     delete (getCacheKey key) m, started).
Proof.
  cbn [Nat.add]. erewrite exec_n_step by reflexivity.
  erewrite exec_n_step by (cbn [exec]; by rewrite lookup_last).
  erewrite exec_n_step by (cbn [exec]; by rewrite close_last, lookup_last).
  rewrite exec_n_returned. by rewrite !app_nil_r.
Qed.

Lemma exec_n_refresh n key w es m v e :
  exec_n s (3 + n) (Get_go key (length es)) w
    (es ++ [mkMapEntry false v e]) m [] =
    (Get_returned (length es) v e, w, es ++ [mkMapEntry true v e], m,
     [refresh_load key]).
Proof.
  cbn [Nat.add]. erewrite exec_n_step by reflexivity.
  erewrite exec_n_step by (cbn [exec]; by rewrite lookup_last).
  erewrite exec_n_step by (cbn [exec]; by rewrite close_last, lookup_last).
  rewrite exec_n_returned. by rewrite !app_nil_r.
Qed.

Lemma Get_alone ctx key w es m :
  m !! getCacheKey key = None →
  exec_n s 7 (Get ctx key) w es m [] = Get_first_arrival s ctx key w es m.
Proof.
  intros Hm. unfold Get, Get_first_arrival.
  erewrite exec_n_step by (cbn [exec]; by rewrite Hm).
  destruct (GetWithTTL s ctx key w) as [[[object ttl] oe] w1] eqn:HG.
  assert (Hfresh : delete (getCacheKey key) (<[getCacheKey key:=length es]> m) = m)
    by (by rewrite delete_insert_eq, delete_id).
  destruct oe as [e|].
  - destruct (is_NotFound_pointer e) eqn:He.
    + erewrite exec_n_step by (cbn [exec]; by rewrite HG, He).
      rewrite assign_last. by apply exec_n_reload.
    + erewrite exec_n_step by (cbn [exec]; by rewrite HG, He).
      rewrite assign_last. cbn [lockChannel app].
      rewrite (exec_n_serve 2). by rewrite Hfresh.
  - destruct (bool_decide (Duration.add ttl (minimumTTL s) < 0)) eqn:Hexp.
    + erewrite exec_n_step by (cbn [exec]; by rewrite HG, Hexp).
      rewrite assign_last. by apply exec_n_reload.
    + destruct (bool_decide (ttl < 0)) eqn:Hst.
      * erewrite exec_n_step by (cbn [exec]; by rewrite HG, Hexp, Hst).
        rewrite assign_last. cbn [lockChannel app].
        by rewrite (exec_n_refresh 2).
      * erewrite exec_n_step by (cbn [exec]; by rewrite HG, Hexp, Hst).
        rewrite assign_last. cbn [lockChannel app].
        rewrite (exec_n_serve 2). by rewrite Hfresh.
Qed.

Lemma run_Get i ctx key st v stored oe e1 :
  goroutines st !! i = Some (Get ctx key) →
  inprogressMap st !! getCacheKey key = None →
  si_GetWithTTL (cache s) ctx key (env (world st)) = ((v, stored, oe), e1) →
  Duration.valid stored →
  let w1 := after_read (world st) ctx key v e1 in
  let reload := loadAndStore s ctx key w1 in
  let reloaded :=
    returned_from_Get st i reload.1.1 reload.1.2 reload.2 (inprogressMap st) [] in
  run_goroutine s 7 i st =
    match oe with
    | Some e =>
        if is_NotFound_pointer e then reloaded
        else returned_from_Get st i zero oe w1 (inprogressMap st) []
    | None =>
        if decide (stored < 0) then reloaded
        else if decide (Duration.sub stored (minimumTTL s) < 0)
             then returned_from_Get st i v None w1
                    (<[getCacheKey key:=length (entries st)]> (inprogressMap st))
                    [refresh_load key]
             else returned_from_Get st i v None w1 (inprogressMap st) []
    end.
Proof.
  intros Hg Hm Hread Hv. cbv zeta.
  rewrite (run_goroutine_alone 7 i _ st Hg), Get_alone by done.
  unfold Get_first_arrival, returned_from_Get, after_read.
  rewrite GetWithTTL_unfold, Hread. cbv zeta. rewrite <- (assoc_L (++)).
  cbn [app].
  destruct oe as [e|].
  - destruct (is_NotFound_pointer e).
    + destruct (loadAndStore _ _ _ _) as [[res e'] w2]. simpl. by rewrite app_nil_r.
    + by rewrite app_nil_r.
  - rewrite add_sub_cancel by done.
    destruct (decide (stored < 0)) as [Hneg|Hneg].
    + rewrite bool_decide_eq_true_2 by done.
      destruct (loadAndStore _ _ _ _) as [[res e'] w2]. simpl. by rewrite app_nil_r.
    + rewrite bool_decide_eq_false_2 by done.
      destruct (decide (Duration.sub stored (minimumTTL s) < 0)) as [Hst|Hst].
      * by rewrite bool_decide_eq_true_2 by done.
      * rewrite bool_decide_eq_false_2 by done. by rewrite app_nil_r.
Qed.

(** The program point a leader moves to after its read, by class; any
    other error sends it to [Delete] with the error in its record. *)
Lemma step_classifies i ctx key l st v stored oe e1 :
  goroutines st !! i = Some (Get_GetWithTTL ctx key l) →
  si_GetWithTTL (cache s) ctx key (env (world st)) = ((v, stored, oe), e1) →
  Duration.valid stored → Duration.valid (minimumTTL s) → 0 <= minimumTTL s →
  ∃ st',
    step s i st = Some st'
    ∧ world st' = after_read (world st) ctx key v e1
    ∧ goroutines st' !! i
      = Some match staleness (minimumTTL s) stored oe with
             | Some FRESH => Get_Delete key l
             | Some STALE => Get_go key l
             | Some EXPIRED_OR_MISSING => Get_load ctx key l
             | None => Get_Delete key l
             end.
Proof.
  intros Hg Hread Hv Hmv H0.
  assert (Hi : ∀ g', (<[i:=g']> (goroutines st) ++ []) !! i = Some g').
  { intros g'. apply lookup_app_l_Some, list_lookup_insert_eq.
    by eapply lookup_lt_Some. }
  unfold step. rewrite Hg. cbn [exec].
  rewrite GetWithTTL_unfold, Hread.
  destruct oe as [e|]; cbv beta iota zeta;
    (eexists; split; [reflexivity|]); cbn [world goroutines].
  - split; [unfold after_read; by rewrite <- (assoc_L (++))|].
    rewrite Hi. unfold staleness. by destruct (is_NotFound_pointer e).
  - split; [unfold after_read; by rewrite <- (assoc_L (++))|].
    rewrite Hi. f_equal.
    rewrite add_sub_cancel by done.
    unfold staleness, classify.
    unfold Duration.valid, Duration.min_int64, Duration.max_int64 in *.
    destruct (decide (0 <= stored - minimumTTL s)) as [Hf|Hf].
    + rewrite !bool_decide_eq_false_2; [done| |lia].
      rewrite sub_exact
        by (unfold Duration.valid, Duration.min_int64, Duration.max_int64; lia).
      lia.
    + destruct (decide (- minimumTTL s <= stored - minimumTTL s)) as [Hs|Hs].
      * rewrite bool_decide_eq_false_2 by lia.
        rewrite bool_decide_eq_true_2; [done|].
        rewrite sub_exact
          by (unfold Duration.valid, Duration.min_int64, Duration.max_int64; lia).
        lia.
      * by rewrite bool_decide_eq_true_2 by lia.
Qed.

(** C1. A read of the underlying store that returns a value and the
    stored TTL [stored] without error is classified by the logical TTL
    [t = stored - m], for every margin [m >= 0]: whatever the other
    goroutines do, the leader goes on to [Delete] and its return when
    [FRESH] ([t >= 0]), to starting the refresh when [STALE]
    ([-m <= t < 0]), and into [loadAndStore] when [EXPIRED_OR_MISSING]
    ([t < -m], or the store reports the key absent).  For a first caller
    running alone, [Get] as a whole: [FRESH] returns the cached value
    with a nil error, the record removed, nothing loaded or written;
    [STALE] returns the cached value with a nil error, the record left
    in the table and the refresh goroutine started;
    [EXPIRED_OR_MISSING] returns the result of [loadAndStore], run by
    the caller itself before it returns. *)
Theorem Get_classifies_by_logical_ttl i ctx key st v stored oe e1 :
  si_GetWithTTL (cache s) ctx key (env (world st)) = ((v, stored, oe), e1) →
  Duration.valid stored → Duration.valid (minimumTTL s) → 0 <= minimumTTL s →
  let w1 := after_read (world st) ctx key v e1 in
  let reload := loadAndStore s ctx key w1 in
  (∀ l, goroutines st !! i = Some (Get_GetWithTTL ctx key l) →
        ∃ st',
          step s i st = Some st' ∧ world st' = w1
          ∧ goroutines st' !! i
            = Some match staleness (minimumTTL s) stored oe with
                   | Some FRESH => Get_Delete key l
                   | Some STALE => Get_go key l
                   | Some EXPIRED_OR_MISSING => Get_load ctx key l
                   | None => Get_Delete key l
                   end)
  ∧ (goroutines st !! i = Some (Get ctx key) →
     inprogressMap st !! getCacheKey key = None →
     match staleness (minimumTTL s) stored oe with
     | Some FRESH =>
         run_goroutine s 7 i st
         = returned_from_Get st i v None w1 (inprogressMap st) []
     | Some STALE =>
         run_goroutine s 7 i st
         = returned_from_Get st i v None w1
             (<[getCacheKey key:=length (entries st)]> (inprogressMap st))
             [refresh_load key]
     | Some EXPIRED_OR_MISSING =>
         run_goroutine s 7 i st
         = returned_from_Get st i reload.1.1 reload.1.2 reload.2 (inprogressMap st) []
     | None => True
     end).
Proof.
  intros Hread Hv Hmv H0. cbv zeta. split.
  { intros l Hg. by eapply step_classifies. }
  intros Hg Hm.
  rewrite (run_Get i ctx key st v stored oe e1) by done. cbv zeta.
  unfold staleness, classify.
  destruct oe as [e|].
  - by destruct (is_NotFound_pointer e).
  - unfold Duration.valid, Duration.min_int64, Duration.max_int64 in *.
    destruct (decide (0 <= stored - minimumTTL s)) as [Hf|Hf].
    + rewrite decide_False by lia.
      rewrite sub_exact by (unfold Duration.valid, Duration.min_int64, Duration.max_int64; lia).
      by rewrite decide_False by lia.
    + destruct (decide (- minimumTTL s <= stored - minimumTTL s)) as [Hs|Hs].
      * rewrite decide_False by lia.
        rewrite sub_exact by (unfold Duration.valid, Duration.min_int64, Duration.max_int64; lia).
        by rewrite decide_True by lia.
      * by rewrite decide_True by lia.
Qed.

(** C4. When the underlying store reports not-found (the pointer
    error [Get] tests for) to the first caller of [Get], the caller
    receives the pair of the reload it runs itself, not that error:
    with a load function configured, the load function's value and
    error; with none, the zero value of [T] and a nil error. *)
Theorem Get_recovers_not_found i ctx key st v stored e1 :
  goroutines st !! i = Some (Get ctx key) →
  inprogressMap st !! getCacheKey key = None →
  si_GetWithTTL (cache s) ctx key (env (world st))
    = ((v, stored, Some NotFoundPtr), e1) →
  Duration.valid stored →
  let w1 := after_read (world st) ctx key v e1 in
  let reload := loadAndStore s ctx key w1 in
  let mEntry := length (entries st) in
  goroutines (run_goroutine s 7 i st) !! i
    = Some (Get_returned mEntry reload.1.1 reload.1.2)
  ∧ (∀ f, loadFunc s = Some f →
       goroutines (run_goroutine s 7 i st) !! i
       = Some (Get_returned mEntry (f ctx key e1).1.1 (f ctx key e1).1.2))
  ∧ (loadFunc s = None →
       goroutines (run_goroutine s 7 i st) !! i
       = Some (Get_returned mEntry zero None)).
Proof.
  intros Hg Hm Hread Hv. cbv zeta.
  rewrite (run_Get i ctx key st v stored _ e1) by done. cbv zeta.
  cbn [is_NotFound_pointer]. unfold returned_from_Get. cbn [goroutines].
  rewrite app_nil_r, list_lookup_insert_eq by (by eapply lookup_lt_Some).
  split; [done|].
  rewrite loadAndStore_unfold.
  split.
  - intros f ->. cbn [after_read env].
    destruct (f ctx key e1) as [[res oe] e2].
    by destruct (admitted _ _ _ _).
  - by intros ->.
Qed.

(** C7. When the write to the underlying store made by the reload
    fails, the caller of [Get] still receives the loaded value with a
    nil error: the store was called, its error is dropped. *)
Theorem Get_discards_write_error i ctx key st v stored oe e1 f res e2 werr e3 :
  goroutines st !! i = Some (Get ctx key) →
  inprogressMap st !! getCacheKey key = None →
  si_GetWithTTL (cache s) ctx key (env (world st)) = ((v, stored, oe), e1) →
  Duration.valid stored →
  oe = Some NotFoundPtr ∨ (oe = None ∧ stored < 0) →
  loadFunc s = Some f →
  f ctx key e1 = ((res, None), e2) →
  (∀ p, shouldCache s = Some p → p key res = true) →
  si_Set (cache s) ctx key res [store.WithExpiration (Set_expiration s [])] e2
    = (Some werr, e3) →
  run_goroutine s 7 i st
  = returned_from_Get st i res None
      (mkWorld e3
         (trace (world st)
          ++ [CallGetWithTTL ctx key; Println v; CallLoad ctx key;
              CallSet ctx key res [store.WithExpiration (Set_expiration s [])]]))
      (inprogressMap st) [].
Proof.
  intros Hg Hm Hread Hv Hpath Hf Hload Hp Hset.
  rewrite (run_Get i ctx key st v stored oe e1) by done. cbv zeta.
  assert (Hadm : admitted s ctx key (after_read (world st) ctx key v e1) = true).
  { unfold admitted. rewrite Hf. cbn [after_read env]. rewrite Hload.
    destruct (shouldCache s) as [p|] eqn:Hsc; [by apply Hp | done]. }
  assert (Hreload : loadAndStore s ctx key (after_read (world st) ctx key v e1)
    = ((res, None),
       mkWorld e3
         (trace (world st)
          ++ [CallGetWithTTL ctx key; Println v; CallLoad ctx key;
              CallSet ctx key res [store.WithExpiration (Set_expiration s [])]]))).
  { rewrite loadAndStore_unfold, Hf, Hadm. cbn [after_read env trace].
    rewrite Hload. cbv zeta. rewrite Set_unfold. cbn [env trace app].
    cbv zeta. rewrite Hset. cbn [snd].
    by rewrite <- !(assoc_L (++)). }
  destruct Hpath as [->|[-> Hneg]].
  - cbn [is_NotFound_pointer]. by rewrite Hreload.
  - rewrite decide_True by done. by rewrite Hreload.
Qed.

(** *** The single-flight invariant *)

Ltac exec_inv H :=
  match type of H with
  | exec _ ?g _ _ _ = Some _ =>
      destruct g; cbn [exec] in H; repeat case_match; simplify_eq
  end.

Lemma length_assign l v e es : length (assign l v e es) = length es.
Proof. apply length_alter. Qed.

Lemma length_close l es : length (close l es) = length es.
Proof. apply length_alter. Qed.

Lemma leads_ok l g es :
  (0 < leads l g)%nat → goroutine_ok es g →
  ∃ r, es !! l = Some r ∧ lockChannel r = false.
Proof. destruct g; simpl; try lia; case_decide; by (lia || subst). Qed.

Lemma leads_record l g : (0 < leads l g)%nat → record_of g = Some l.
Proof. destruct g; simpl; try lia; case_decide; by (lia || subst). Qed.

Lemma record_in_range l g es :
  record_of g = Some l → goroutine_ok es g → (l < length es)%nat.
Proof.
  destruct g; simpl; intros ? Hok; simplify_eq; try done;
    try (destruct Hok as (r & Hr & _)); by eapply lookup_lt_Some.
Qed.

(** A step changes no record but the one its goroutine leads, and
    only adds records. *)
Lemma exec_entries g w es m g' w' es' m' new :
  exec s g w es m = Some (g', w', es', m', new) →
  (length es ≤ length es')%nat
  ∧ ∀ l, (l < length es)%nat → leads l g = 0%nat → es' !! l = es !! l.
Proof.
  intros Hx. exec_inv Hx;
    rewrite ?length_assign, ?length_close, ?length_app; (split; [simpl; lia|]);
    intros l Hl Hlead; simpl in Hlead; try done;
    try (by rewrite lookup_app_l);
    case_decide; try done;
    unfold assign, close; by rewrite list_lookup_alter_ne.
Qed.

Lemma lookup_assign_open l v e es r :
  es !! l = Some r → lockChannel r = false →
  ∃ r', assign l v e es !! l = Some r' ∧ lockChannel r' = false.
Proof.
  intros Hr Ho. unfold assign. rewrite list_lookup_alter_eq, Hr. simpl. eauto.
Qed.

(** The goroutine that steps, and those it starts, find what they
    rely on. *)
Lemma exec_ok_self g w es m g' w' es' m' new :
  goroutine_ok es g →
  (∀ k l, m !! k = Some l → (l < length es)%nat) →
  exec s g w es m = Some (g', w', es', m', new) →
  goroutine_ok es' g' ∧ ∀ i x, new !! i = Some x → goroutine_ok es' x.
Proof.
  intros Hok Hm Hx.
  exec_inv Hx; simpl in *;
    (split; [|intros [|[|?]] x Hnew; by simplify_eq/=]);
    try done;
    try (destruct Hok as (r & Hr & Ho); by eapply lookup_assign_open).
  - by eapply Hm.
  - rewrite lookup_last. eauto.
  - by destruct m0 as [[] ? ?]; simplify_eq/=.
  - unfold close. rewrite list_lookup_alter_eq.
    match goal with H : es !! _ = Some _ |- _ => rewrite H end. simpl. eauto.
  - destruct Hok as (r & Hr & Hc). simplify_eq.
    by destruct r as [[] ? ?]; simplify_eq/=.
Qed.

(** The other goroutines still find what they rely on. *)
Lemma exec_ok_frame g w es m g' w' es' m' new x :
  goroutine_ok es g → goroutine_ok es x →
  (∀ l, (0 < leads l g)%nat → leads l x = 0%nat) →
  exec s g w es m = Some (g', w', es', m', new) →
  goroutine_ok es' x.
Proof.
  intros Hg Hok Huniq Hx.
  destruct (exec_entries _ _ _ _ _ _ _ _ _ Hx) as [Hlen Hframe].
  assert (Hkeep : ∀ l r c, es !! l = Some r → lockChannel r = c →
            (c = true ∨ leads l x = 1%nat) → es' !! l = Some r).
  { intros l r c Hr Hc Hwhy. rewrite Hframe; [done|by eapply lookup_lt_Some|].
    destruct (leads l g) eqn:Hl; [done|exfalso].
    destruct (leads_ok l g es) as (r' & Hr' & Ho); [lia|done|].
    destruct Hwhy as [->|Hlx]; [congruence|].
    rewrite Huniq in Hlx; [done|lia]. }
  destruct x; simpl in *; try done; try lia;
    try (destruct Hok as (r & Hr & Hc); exists r; split; [|done];
         eapply Hkeep; [done..|]; first [by left | right; by rewrite decide_True]).
  eapply Hkeep; [done| |by left]. done.
Qed.

Lemma exec_table g w es m g' w' es' m' new :
  (∀ k l, m !! k = Some l → (l < length es)%nat) →
  exec s g w es m = Some (g', w', es', m', new) →
  ∀ k l, m' !! k = Some l → (l < length es')%nat.
Proof.
  intros Hm Hx k l.
  exec_inv Hx; rewrite ?length_assign, ?length_close, ?length_app;
    try (by apply Hm);
    try (rewrite lookup_delete_Some; intros [_ ?]; by eapply Hm).
  rewrite lookup_insert_Some. intros [[_ <-]|[_ ?]]; simpl; [lia|].
  etrans; [by eapply Hm|lia].
Qed.

Lemma exec_holds g w es m g' w' es' m' new k :
  ((0 < holds k g)%nat → is_Some (m !! k)) →
  exec s g w es m = Some (g', w', es', m', new) →
  (holds k g' + tally (holds k) new
     + match m !! k with Some _ => 1 | None => 0 end
   = holds k g + match m' !! k with Some _ => 1 | None => 0 end)%nat.
Proof.
  intros Hheld Hx.
  exec_inv Hx; cbn [holds tally foldr] in *; try lia;
    destruct (decide (getCacheKey key = k)) as [<-|Hne];
    simplify_map_eq; try lia;
    destruct Hheld as [? ?]; (lia || done).
Qed.

Lemma exec_leads g w es m g' w' es' m' new l :
  exec s g w es m = Some (g', w', es', m', new) →
  tally (leads l) new = 0%nat
  ∧ (leads l g' ≤ 1)%nat
  ∧ ((l < length es)%nat → (leads l g' ≤ leads l g)%nat).
Proof.
  intros Hx.
  exec_inv Hx; cbn [leads tally foldr]; repeat case_decide; (lia || done).
Qed.

Lemma exec_records g w es m g' w' es' m' new :
  exec s g w es m = Some (g', w', es', m', new) →
  (∀ l, record_of g = Some l → record_of g' = Some l)
  ∧ (∀ l, (l < length es')%nat →
          (l < length es)%nat ∨ record_of g' = Some l).
Proof.
  intros Hx.
  exec_inv Hx; rewrite ?length_assign, ?length_close, ?length_app;
    (split; [done|intros l Hl; auto]).
  simpl in *. destruct (decide (l = length es)) as [->|]; [by right|left; lia].
Qed.

Lemma exec_open_led g w es m g' w' es' m' new l r' :
  exec s g w es m = Some (g', w', es', m', new) →
  es' !! l = Some r' → lockChannel r' = false →
  (0 < leads l g')%nat
  ∨ ((leads l g ≤ leads l g')%nat
     ∧ ∃ r, es !! l = Some r ∧ lockChannel r = false).
Proof.
  intros Hx Hr' Ho.
  exec_inv Hx; cbn [leads]; try (right; split; [lia|by eauto]).
  all: try (destruct (decide (mEntry = l)) as [->|Hne];
            [left; lia|right; split; [lia|]];
            unfold assign, close in Hr';
            rewrite list_lookup_alter_ne in Hr' by done; by eauto).
  - destruct (decide (length es = l)) as [|Hne]; [left; lia|right; split; [lia|]].
    apply lookup_app_Some in Hr' as [Hr'|[Hge Hr']]; [by eauto|].
    apply lookup_lt_Some in Hr'. simpl in Hr'. lia.
  - destruct (decide (mEntry = l)) as [->|Hne].
    + unfold close in Hr'. rewrite list_lookup_alter_eq in Hr'.
      destruct (es !! l); simplify_eq/=.
    + right. split; [lia|]. unfold close in Hr'.
      rewrite list_lookup_alter_ne in Hr' by done. by eauto.
Qed.

(** A step changes no table entry but the one its goroutine holds
    or inserts. *)
Lemma exec_map_frame g w es m g' w' es' m' new k :
  exec s g w es m = Some (g', w', es', m', new) →
  holds k g = 0%nat → is_Some (m !! k) → m' !! k = m !! k.
Proof.
  intros Hx Hh [l Hl].
  exec_inv Hx; try done; cbn [holds] in Hh;
    try (case_decide; [done|]; by rewrite lookup_delete_ne).
  rewrite lookup_insert_ne; [done|]. by intros <-; simplify_eq.
Qed.

Lemma exec_table_led g w es m g' w' es' m' new l k :
  (∀ l k, (0 < leads l g)%nat → (0 < holds k g)%nat → m !! k = Some l) →
  exec s g w es m = Some (g', w', es', m', new) →
  (0 < leads l g')%nat → (0 < holds k g')%nat → m' !! k = Some l.
Proof.
  intros Hled Hx.
  exec_inv Hx; cbn [leads holds]; try lia;
    repeat case_decide; try lia; intros _ _; subst;
    try (apply Hled; cbn [leads holds]; rewrite ?decide_True by done; lia).
  by rewrite lookup_insert_eq.
Qed.

Lemma lookup_stepped (gs new : list Goroutine) i g' j x :
  (<[i:=g']> gs ++ new) !! j = Some x →
  (j = i ∧ x = g') ∨ (j ≠ i ∧ gs !! j = Some x) ∨ (∃ n, new !! n = Some x).
Proof.
  rewrite lookup_app_Some, length_insert.
  intros [Hj|[_ Hj]]; [|by eauto].
  apply list_lookup_insert_Some in Hj as [(-> & -> & _)|[? ?]]; auto.
Qed.

Lemma lookup_stepped_other (gs new : list Goroutine) i g' j x :
  j ≠ i → gs !! j = Some x → (<[i:=g']> gs ++ new) !! j = Some x.
Proof.
  intros Hne Hj. apply lookup_app_l_Some. by rewrite list_lookup_insert_ne.
Qed.

Lemma lookup_stepped_self (gs new : list Goroutine) i g g' :
  gs !! i = Some g → (<[i:=g']> gs ++ new) !! i = Some g'.
Proof.
  intros Hi. apply lookup_app_l_Some, list_lookup_insert_eq.
  by eapply lookup_lt_Some.
Qed.

Lemma step_inv i st st' :
  step s i st = Some st' →
  ∃ g g' new,
    goroutines st !! i = Some g
    ∧ exec s g (world st) (entries st) (inprogressMap st)
      = Some (g', world st', entries st', inprogressMap st', new)
    ∧ goroutines st' = <[i:=g']> (goroutines st) ++ new.
Proof.
  unfold step. intros Hs.
  destruct (goroutines st !! i) as [g|]; [|done].
  destruct (exec s g _ _ _) as [[[[[g' w'] es'] m'] new]|] eqn:Hx; [|done].
  simplify_eq. by exists g, g', new.
Qed.

(** Every step keeps the invariant. *)
Lemma coalescing_step i st st' :
  coalescing st → step s i st = Some st' → coalescing st'.
Proof.
  intros [Hok Htab Hhold Hlead Hused Hopen Hled] Hs.
  apply step_inv in Hs as (g & g' & new & Hg & Hx & Hgs).
  assert (Hokg : goroutine_ok (entries st) g) by eauto.
  destruct (exec_ok_self _ _ _ _ _ _ _ _ _ Hokg Htab Hx) as [Hokg' Hoknew].
  destruct (exec_records _ _ _ _ _ _ _ _ _ Hx) as [Hstable Hfresh].
  split; rewrite ?Hgs.
  - intros j x Hj.
    apply lookup_stepped in Hj as [[-> ->]|[[Hne Hj]|[n Hn]]]; [done| |by eauto].
    eapply exec_ok_frame; [exact Hokg|by eauto| |exact Hx].
    intros l Hl. destruct (leads l x) eqn:Hlx; [done|exfalso].
    apply Hne. eapply (tally_unique (leads l) _ j i x g refresh_done);
      [apply Hlead|done..|lia|done].
  - by eapply exec_table.
  - intros k. rewrite tally_app.
    pose proof (tally_insert (holds k) _ i g g' Hg) as Hins.
    specialize (Hhold k).
    assert (Hheld : (0 < holds k g)%nat → is_Some (inprogressMap st !! k)).
    { intros Hpos. pose proof (tally_lookup_le (holds k) _ i g Hg).
      destruct (inprogressMap st !! k); [by eauto|lia]. }
    pose proof (exec_holds _ _ _ _ _ _ _ _ _ k Hheld Hx) as Hh.
    lia.
  - intros l. rewrite tally_app.
    pose proof (tally_insert (leads l) _ i g g' Hg) as Hins.
    destruct (exec_leads _ _ _ _ _ _ _ _ _ l Hx) as (Hnew & Hone & Hle).
    destruct (decide (l < length (entries st))%nat) as [Hl|Hl].
    + specialize (Hle Hl). specialize (Hlead l). lia.
    + assert (Hz : tally (leads l) (goroutines st) = 0%nat).
      { apply tally_zero. intros j x Hj.
        destruct (leads l x) eqn:Hlx; [done|exfalso]. apply Hl.
        eapply (record_in_range l x); [apply leads_record; lia|by eauto]. }
      lia.
  - intros l Hl. destruct (Hfresh l Hl) as [Hold|Hnew].
    + destruct (Hused l Hold) as (j & x & Hj & Hrec).
      destruct (decide (j = i)) as [->|Hne].
      * simplify_eq. exists i, g'. split; [by eapply lookup_stepped_self|auto].
      * exists j, x. split; [by apply lookup_stepped_other|done].
    + exists i, g'. split; [by eapply lookup_stepped_self|done].
  - intros l r' Hr' Ho. rewrite tally_app.
    pose proof (tally_insert (leads l) _ i g g' Hg) as Hins.
    destruct (exec_open_led _ _ _ _ _ _ _ _ _ l r' Hx Hr' Ho)
      as [Hpos|(Hle & r & Hr & Hro)].
    + pose proof (tally_lookup_le (leads l) (<[i:=g']> (goroutines st)) i g')
        as Hle.
      rewrite list_lookup_insert_eq in Hle by (by eapply lookup_lt_Some).
      specialize (Hle eq_refl). lia.
    + specialize (Hopen l r Hr Hro). lia.
  - intros j x l k Hj Hl Hk.
    apply lookup_stepped in Hj as [[-> ->]|[[Hne Hj]|[n Hn]]].
    + eapply exec_table_led; [|exact Hx|done..]. intros l' k'. by apply (Hled i g).
    + erewrite exec_map_frame; [by eapply (Hled j x)|exact Hx| |].
      * destruct (holds k g) eqn:Hkg; [done|exfalso]. apply Hne.
        assert (Hone : (tally (holds k) (goroutines st) ≤ 1)%nat).
        { rewrite Hhold. destruct (inprogressMap st !! k); lia. }
        eapply (tally_unique (holds k) _ j i x g refresh_done);
          [exact Hone|done..|lia].
      * rewrite (Hled j x l k Hj Hl Hk). by eauto.
    + exfalso. exec_inv Hx; destruct n as [|[|?]]; simplify_eq/=. lia.
Qed.

Lemma coalescing_initial w calls : coalescing (initial w calls).
Proof.
  assert (Hget : ∀ i x, ((λ c : Context * Key, Get c.1 c.2) <$> calls) !! i = Some x →
            ∃ ctx key, x = Get ctx key).
  { intros i x Hi. rewrite list_lookup_fmap in Hi.
    destruct (calls !! i) as [[ctx key]|]; simplify_eq/=. by eauto. }
  split; simpl.
  - intros i g Hi. by destruct (Hget i g Hi) as (ctx & key & ->).
  - intros k l. by rewrite lookup_empty.
  - intros k. rewrite lookup_empty. apply tally_zero.
    intros i g Hi. by destruct (Hget i g Hi) as (ctx & key & ->).
  - intros l. rewrite tally_zero; [lia|].
    intros i g Hi. by destruct (Hget i g Hi) as (ctx & key & ->).
  - intros l Hl. lia.
  - intros l r. by rewrite lookup_nil.
  - intros i g l k Hi. destruct (Hget i g Hi) as (ctx & key & ->). simpl. lia.
Qed.

Lemma coalescing_steps st st' :
  coalescing st → rtc (steps s) st st' → coalescing st'.
Proof.
  intros Hinv Hrtc. induction Hrtc as [|st1 st2 st3 [i Hs] _ IH]; [done|].
  apply IH. by eapply coalescing_step.
Qed.

Lemma coalescing_reachable w calls st :
  reachable s w calls st → coalescing st.
Proof. apply coalescing_steps, coalescing_initial. Qed.

(** *** Progress and termination *)

Lemma tally_pos_lookup {A} (f : A → nat) (l : list A) :
  (0 < tally f l)%nat → ∃ i x, l !! i = Some x ∧ (0 < f x)%nat.
Proof.
  induction l as [|z l IH]; simpl; [lia|]. intros Hpos.
  destruct (f z) eqn:Hz.
  - destruct IH as (i & x & Hi & Hx); [lia|]. by exists (S i), x.
  - exists 0%nat, z. split; [done|lia].
Qed.

Lemma exec_weight g w es m g' w' es' m' new :
  exec s g w es m = Some (g', w', es', m', new) →
  (weight g' + tally weight new < weight g)%nat.
Proof. intros Hx. exec_inv Hx; simpl; lia. Qed.

Lemma step_weight i st st' :
  step s i st = Some st' →
  (tally weight (goroutines st') < tally weight (goroutines st))%nat.
Proof.
  intros Hs. apply step_inv in Hs as (g & g' & new & Hg & Hx & ->).
  rewrite tally_app.
  pose proof (tally_insert weight _ i g g' Hg).
  pose proof (exec_weight _ _ _ _ _ _ _ _ _ Hx). lia.
Qed.

(** A goroutine that cannot step has finished or waits for a channel
    that is still open. *)
Lemma exec_blocked g w es m :
  goroutine_ok es g → exec s g w es m = None →
  finished g = true
  ∨ ∃ l r, g = Get_receive l ∧ es !! l = Some r ∧ lockChannel r = false.
Proof.
  intros Hok Hx.
  destruct g; cbn [exec] in Hx; simpl in Hok; repeat case_match;
    simplify_eq; auto.
  - right. by eauto.
  - by apply lookup_lt_is_Some_2 in Hok as [? ?]; simplify_eq.
  - destruct Hok as (? & ? & ?); simplify_eq. congruence.
  - destruct Hok as (? & ? & ?); simplify_eq.
  - destruct Hok as (? & ? & ?); simplify_eq.
Qed.

Lemma leader_steps l g w es m :
  (0 < leads l g)%nat → goroutine_ok es g → is_Some (exec s g w es m).
Proof.
  intros Hl Hok.
  destruct (exec s g w es m) eqn:Hx; [by eauto|exfalso].
  destruct (exec_blocked g w es m Hok Hx) as [Hf|(l' & r & -> & _)].
  - destruct g; simpl in *; (done || lia).
  - simpl in Hl. lia.
Qed.



(** *** Runs with a single record *)

Lemma Set_calls_snoc tr e :
  Set_calls (tr ++ [e]) = (Set_calls tr + is_CallSet e)%nat.
Proof. unfold Set_calls. rewrite tally_app. simpl. lia. Qed.








Lemma run_steps schedule st : rtc (steps s) st (run s schedule st).
Proof.
  revert st. induction schedule as [|i schedule IH]; intros st; simpl; [done|].
  destruct (step s i st) as [st'|] eqn:Hs; [|done].
  eapply rtc_l; [by exists i|done].
Qed.

Lemma reachable_run w calls schedule :
  reachable s w calls (run s schedule (initial w calls)).
Proof. apply run_steps. Qed.

(** *** Coalescing *)
















(** *** Serving stale values *)


















(** *** What a run calls, and how often *)

(** The events a step appends to the log, by program point. *)
Lemma exec_trace g w es m g' w' es' m' new :
  exec s g w es m = Some (g', w', es', m', new) →
  ∃ tr, trace w' = trace w ++ tr
    ∧ match g with
      | Get_GetWithTTL ctx key _ => ∃ v, tr = [CallGetWithTTL ctx key; Println v]
      | Get_load ctx key _ =>
          tr = [CallLoad ctx key] ∨ (tr = [] ∧ to_store g' = 0%nat)
      | refresh_load key =>
          tr = [CallLoad Background key] ∨ (tr = [] ∧ to_store g' = 0%nat)
      | Get_store ctx key _ res _ =>
          tr = [CallSet ctx key res [store.WithExpiration (Set_expiration s [])]]
      | refresh_store key res _ =>
          tr = [CallSet Background key res
                  [store.WithExpiration (Set_expiration s [])]]
      | _ => tr = []
      end.
Proof.
  intros Hx. destruct g; cbn [exec] in Hx.
  - repeat case_match; simplify_eq; exists []; by rewrite app_nil_r.
  - repeat case_match; simplify_eq; exists []; by rewrite app_nil_r.
  - rewrite GetWithTTL_unfold in Hx.
    destruct (si_GetWithTTL _ _ _ _) as [[[v t] oe] e].
    exists [CallGetWithTTL ctx key; Println v].
    split; [|by eauto].
    destruct oe; cbv beta iota zeta in Hx; simplify_eq; cbn [trace].
    all: by rewrite <- (assoc_L (++)).
  - rewrite loadAndStore_load_unfold in Hx.
    destruct (loadFunc s) as [f|].
    + destruct (f ctx key (env w)) as [[res oe] e].
      exists [CallLoad ctx key]. split; [|by left].
      by destruct (admitted s ctx key w); simplify_eq.
    + simplify_eq. exists []. rewrite app_nil_r. split; [done|by right].
  - unfold loadAndStore_store, mbind, M_bind in Hx.
    pose proof (Set_unfold ctx key res [] w) as HS. cbv zeta in HS.
    destruct (Set_ s ctx key res [] w) as [r w1].
    destruct (si_Set _ _ _ _ _ _) as [r' e'].
    unfold mret, M_ret in Hx. cbv beta iota zeta in Hx. simplify_eq.
    by eexists.
  - simplify_eq. exists []. by rewrite app_nil_r.
  - simplify_eq. exists []. by rewrite app_nil_r.
  - repeat case_match; simplify_eq; exists []; by rewrite app_nil_r.
  - repeat case_match; simplify_eq; exists []; by rewrite app_nil_r.
  - done.
  - rewrite loadAndStore_load_unfold in Hx.
    destruct (loadFunc s) as [f|].
    + destruct (f Background key (env w)) as [[res oe] e].
      exists [CallLoad Background key]. split; [|by left].
      by destruct (admitted s Background key w); simplify_eq.
    + simplify_eq. exists []. rewrite app_nil_r. split; [done|by right].
  - unfold loadAndStore_store, mbind, M_bind in Hx.
    pose proof (Set_unfold Background key res [] w) as HS. cbv zeta in HS.
    destruct (Set_ s Background key res [] w) as [r w1].
    destruct (si_Set _ _ _ _ _ _) as [r' e'].
    unfold mret, M_ret in Hx. cbv beta iota zeta in Hx. simplify_eq.
    by eexists.
  - simplify_eq. exists []. by rewrite app_nil_r.
  - done.
Qed.

(** The program points a step can lead to, and the goroutines it can
    start. *)
Lemma exec_next g w es m g' w' es' m' new :
  exec s g w es m = Some (g', w', es', m', new) →
  match g with
  | Get_LoadOrStore ctx key =>
      new = []
      ∧ ((∃ l, g' = Get_receive l ∧ es' = es)
         ∨ (g' = Get_GetWithTTL ctx key (length es)
            ∧ length es' = S (length es)))
  | Get_receive l => new = [] ∧ es' = es ∧ ∃ v e, g' = Get_returned l v e
  | Get_GetWithTTL ctx key l =>
      new = [] ∧ length es' = length es
      ∧ (g' = Get_load ctx key l ∨ g' = Get_go key l ∨ g' = Get_Delete key l)
  | Get_load ctx key l =>
      new = [] ∧ length es' = length es
      ∧ ((∃ res e, g' = Get_store ctx key l res e) ∨ g' = Get_Delete key l)
  | Get_store ctx key l _ _ =>
      new = [] ∧ length es' = length es ∧ g' = Get_Delete key l
  | Get_Delete key l => new = [] ∧ es' = es ∧ g' = Get_close l
  | Get_go key l => new = [refresh_load key] ∧ es' = es ∧ g' = Get_close l
  | Get_close l => new = [] ∧ length es' = length es ∧ g' = Get_return l
  | Get_return l => new = [] ∧ es' = es ∧ ∃ v e, g' = Get_returned l v e
  | Get_returned _ _ _ => False
  | refresh_load key =>
      new = [] ∧ es' = es
      ∧ ((∃ res e, g' = refresh_store key res e) ∨ g' = refresh_Delete key)
  | refresh_store key _ _ => new = [] ∧ es' = es ∧ g' = refresh_Delete key
  | refresh_Delete key => new = [] ∧ es' = es ∧ g' = refresh_done
  | refresh_done => False
  end.
Proof.
  intros Hx. exec_inv Hx;
    rewrite ?length_assign, ?length_close, ?length_app; simpl;
    repeat split; try lia; eauto 8.
  right. split; [done|lia].
Qed.

Lemma reachable_ind (P : State → Prop) w calls :
  P (initial w calls) →
  (∀ i st st', reachable s w calls st → P st → step s i st = Some st' → P st') →
  ∀ st, reachable s w calls st → P st.
Proof.
  intros H0 Hstep st. unfold reachable. revert st.
  apply rtc_ind_r; [done|].
  intros st st' Hr [i Hs] IH. by eapply Hstep.
Qed.

Lemma initial_callers w calls i g :
  goroutines (initial w calls) !! i = Some g → ∃ ctx key, g = Get ctx key.
Proof.
  simpl. rewrite list_lookup_fmap. intros Hi.
  destruct (calls !! i) as [[ctx key]|]; simplify_eq/=. by eauto.
Qed.

Lemma accounts_initial w calls : accounts w calls (initial w calls).
Proof.
  unfold accounts. simpl.
  assert (Harr : tally to_arrive ((λ c : Context * Key, Get c.1 c.2) <$> calls)
                 = length calls).
  { induction calls as [|c calls IH]; [done|].
    rewrite fmap_cons. cbn [tally foldr length] in *. unfold Get at 1.
    cbn [to_arrive]. unfold tally in IH. lia. }
  rewrite (tally_zero to_read), (tally_zero to_load), (tally_zero to_store);
    [lia|..];
    intros i g Hi; by destruct (initial_callers w calls i g Hi) as (? & ? & ->).
Qed.

Lemma accounts_step w0 calls i st st' :
  accounts w0 calls st → step s i st = Some st' → accounts w0 calls st'.
Proof.
  intros (Ha & Hr & Hl & Hw) Hs.
  apply step_inv in Hs as (g & g' & new & Hg & Hx & Hgs).
  destruct (exec_trace _ _ _ _ _ _ _ _ _ Hx) as (tr & Htr & Hev).
  pose proof (exec_next _ _ _ _ _ _ _ _ _ Hx) as Hn.
  pose proof (tally_insert to_arrive _ i g g' Hg).
  pose proof (tally_insert to_read _ i g g' Hg).
  pose proof (tally_insert to_load _ i g g' Hg).
  pose proof (tally_insert to_store _ i g g' Hg).
  destruct st as [w es m gs], st' as [w' es' m' gs'].
  unfold accounts, GetWithTTL_calls, Load_calls, Set_calls in *.
  cbn [world entries inprogressMap goroutines] in *.
  rewrite Hgs, Htr, !tally_app.
  destruct g; simpl in Hev, Hn;
    repeat match goal with
    | H : _ ∧ _ |- _ => destruct H
    | H : _ ∨ _ |- _ => destruct H
    | H : ∃ _, _ |- _ => destruct H
    | H : False |- _ => destruct H
    end; subst; simpl in *; lia.
Qed.

Lemma accounts_reachable w0 calls st :
  reachable s w0 calls st → accounts w0 calls st.
Proof.
  revert st. apply reachable_ind; [apply accounts_initial|].
  intros i st st' _. apply accounts_step.
Qed.

(** X1. However the callers are scheduled, the underlying store is read
    once for each record created in the single-flight table: by the
    record's leader, never by a caller that found the record there;
    so at most once for each caller of [Get]. *)
Theorem store_read_once_per_record w0 calls st :
  reachable s w0 calls st →
  (GetWithTTL_calls (trace (world st)) + tally to_read (goroutines st)
   = GetWithTTL_calls (trace w0) + length (entries st))%nat
  ∧ (length (entries st) ≤ length calls)%nat
  ∧ (GetWithTTL_calls (trace (world st))
     ≤ GetWithTTL_calls (trace w0) + length calls)%nat.
Proof.
  intros Hreach.
  destruct (accounts_reachable _ _ _ Hreach) as (Ha & Hr & _). lia.
Qed.

(** X2. However the callers are scheduled, the load function is called
    at most once for each read of the underlying store, and the
    underlying store's [Set] at most once for each call of the load
    function: so each at most once for each caller of [Get]. *)
Theorem loads_and_writes_bounded w0 calls st :
  reachable s w0 calls st →
  (Load_calls (trace (world st)) + GetWithTTL_calls (trace w0)
   ≤ Load_calls (trace w0) + GetWithTTL_calls (trace (world st)))%nat
  ∧ (Set_calls (trace (world st)) + Load_calls (trace w0)
     ≤ Set_calls (trace w0) + Load_calls (trace (world st)))%nat
  ∧ (Load_calls (trace (world st)) ≤ Load_calls (trace w0) + length calls)%nat
  ∧ (Set_calls (trace (world st)) ≤ Set_calls (trace w0) + length calls)%nat.
Proof.
  intros Hreach.
  destruct (accounts_reachable _ _ _ Hreach) as (Ha & Hr & Hl & Hw). lia.
Qed.

(** X3. Whatever [Get] and the refreshes it starts write to the
    underlying store, they write with the default expiration: the
    store resolves the margin plus the configured default TTL from the
    options of every [Set] call of a run. *)
Theorem reload_writes_default_expiration w0 calls st :
  reachable s w0 calls st →
  ∃ tr, trace (world st) = trace w0 ++ tr
    ∧ ∀ e, e ∈ tr → is_CallSet e = 1%nat →
        received_expiration e
        = Some (Duration.add (minimumTTL s) (refreshTTL s)).
Proof.
  revert st. apply reachable_ind.
  { exists []. split; [by rewrite app_nil_r|]. by intros e ?%elem_of_nil. }
  intros i st st' _ (tr & Htr & Hall) Hs.
  apply step_inv in Hs as (g & g' & new & Hg & Hx & Hgs).
  destruct (exec_trace _ _ _ _ _ _ _ _ _ Hx) as (tr1 & Htr1 & Hev).
  exists (tr ++ tr1). split; [by rewrite Htr1, Htr, (assoc_L (++))|].
  intros e [He|He]%elem_of_app; [by apply Hall|]. intros Hset.
  destruct g; simpl in Hev;
    repeat match goal with
    | H : _ ∧ _ |- _ => destruct H
    | H : _ ∨ _ |- _ => destruct H
    | H : ∃ _, _ |- _ => destruct H
    end; subst;
    repeat match goal with
    | H : _ ∈ [] |- _ => by apply elem_of_nil in H
    | H : _ ∈ _ :: _ |- _ => apply elem_of_cons in H as [->|H]
    end; try done.
Qed.

(** *** What a run never does *)

Lemma step_blocked i st g :
  goroutines st !! i = Some g → step s i st = None →
  exec s g (world st) (entries st) (inprogressMap st) = None.
Proof.
  unfold step. intros ->.
  by destruct (exec s g _ _ _) as [[[[[g' w'] es'] m'] new]|].
Qed.

Lemma step_exec i st g :
  goroutines st !! i = Some g →
  is_Some (exec s g (world st) (entries st) (inprogressMap st)) →
  is_Some (step s i st).
Proof.
  unfold step. intros -> [[[[[g' w'] es'] m'] new] ->]. by eauto.
Qed.

(** X4. [Get] never panics and never deadlocks: in every reachable
    state a goroutine that cannot take its next step has finished, or
    it waits at line 78 for a channel that is still open, and then the
    leader of that record is there and can take its next step.  No
    goroutine is stopped by a nil record or by closing a channel
    twice. *)
Theorem Get_never_panics w0 calls st i g :
  reachable s w0 calls st →
  goroutines st !! i = Some g → step s i st = None →
  finished g = true
  ∨ ∃ l r j leader,
      g = Get_receive l
      ∧ entries st !! l = Some r ∧ lockChannel r = false
      ∧ goroutines st !! j = Some leader ∧ (0 < leads l leader)%nat
      ∧ is_Some (step s j st).
Proof.
  intros Hreach Hg Hs.
  pose proof (coalescing_reachable _ _ _ Hreach) as Hinv.
  pose proof (step_blocked _ _ _ Hg Hs) as Hx.
  destruct (exec_blocked g _ _ _ (goroutines_ok st Hinv i g Hg) Hx)
    as [Hf|(l & r & -> & Hr & Ho)]; [by left|right].
  destruct (tally_pos_lookup (leads l) (goroutines st)) as (j & x & Hj & Hl);
    [by eapply open_led|].
  exists l, r, j, x. repeat (split; [done|]).
  eapply step_exec; [done|]. eapply leader_steps; [done|].
  by eapply goroutines_ok.
Qed.

Lemma nsteps_weight n st st' :
  nsteps (steps s) n st st' →
  (n + tally weight (goroutines st') ≤ tally weight (goroutines st))%nat.
Proof.
  induction 1 as [st|n st1 st2 st3 [i Hs] _ IH]; [lia|].
  pose proof (step_weight _ _ _ Hs). lia.
Qed.

Lemma nsteps_run_goroutine n i : ∀ st,
  (∀ k, (k < n)%nat → is_Some (step s i (run_goroutine s k i st))) →
  nsteps (steps s) n st (run_goroutine s n i st).
Proof.
  induction n as [|n IH]; intros st Hsteps; [apply nsteps_O|].
  destruct (Hsteps 0%nat ltac:(lia)) as [st' Hs]. simpl in Hs.
  simpl. rewrite Hs. eapply nsteps_l; [by exists i|].
  apply IH. intros k Hk.
  specialize (Hsteps (S k) ltac:(lia)). simpl in Hsteps. by rewrite Hs in Hsteps.
Qed.

Lemma weight_initial w calls :
  tally weight (goroutines (initial w calls)) = (8 * length calls)%nat.
Proof.
  simpl. induction calls as [|c calls IH]; [done|].
  rewrite fmap_cons. cbn [tally foldr length] in *. unfold Get at 1.
  cbn [weight]. unfold tally in IH. lia.
Qed.

(** X5. Every run terminates, whatever the schedule: [n] callers of
    [Get] and the refreshes they start take at most [8 * n] steps
    together, and what is left to them shrinks with every step. *)
Theorem Get_terminates w0 calls n st :
  nsteps (steps s) n (initial w0 calls) st →
  (n + tally weight (goroutines st) ≤ 8 * length calls)%nat.
Proof.
  intros Hn. rewrite <- (weight_initial w0 calls). by apply nsteps_weight.
Qed.

(** X6. When all callers have returned and all refreshes are done, the
    single-flight table is empty again and every channel is closed: no
    entry is leaked, and no later caller can find a record to wait
    on. *)
Theorem quiescent_table_empty w0 calls st :
  reachable s w0 calls st →
  (∀ i g, goroutines st !! i = Some g → finished g = true) →
  inprogressMap st = ∅
  ∧ ∀ l r, entries st !! l = Some r → lockChannel r = true.
Proof.
  intros Hreach Hfin.
  pose proof (coalescing_reachable _ _ _ Hreach) as Hinv. split.
  - apply map_empty. intros k.
    pose proof (one_holder st Hinv k) as Hk.
    rewrite tally_zero in Hk.
    + by destruct (inprogressMap st !! k).
    + intros i g Hi. specialize (Hfin i g Hi). by destruct g.
  - intros l r Hr. destruct (lockChannel r) eqn:Ho; [done|exfalso].
    pose proof (open_led st Hinv l r Hr Ho) as Hpos.
    rewrite tally_zero in Hpos; [lia|].
    intros i g Hi. specialize (Hfin i g Hi). by destruct g.
Qed.

(** X7. No entry of the single-flight table is orphaned: in every
    reachable state, a key in the table has a goroutine that is still
    to delete it (the leader, or the refresh it started), and that
    goroutine is not blocked. *)
Theorem table_entries_held w0 calls st k l :
  reachable s w0 calls st →
  inprogressMap st !! k = Some l →
  ∃ i g, goroutines st !! i = Some g ∧ (0 < holds k g)%nat
         ∧ is_Some (step s i st).
Proof.
  intros Hreach Hk.
  pose proof (coalescing_reachable _ _ _ Hreach) as Hinv.
  pose proof (one_holder st Hinv k) as Hone. rewrite Hk in Hone.
  destruct (tally_pos_lookup (holds k) (goroutines st)) as (i & g & Hi & Hg);
    [lia|].
  exists i, g. repeat (split; [done|]).
  eapply step_exec; [done|].
  destruct g; simpl in Hg; try lia; cbn [exec]; repeat case_match; by eauto.
Qed.

Lemma zero_margin_ttl t : Duration.add (Duration.sub t 0) 0 = Duration.sub t 0.
Proof.
  unfold Duration.add, Duration.sub. rewrite wrap_add_l. f_equal. lia.
Qed.

(** X8. With a margin of zero (no [WithMaxStaleCacheTTL]) nothing is
    ever stale: [Get] never starts a background refresh, no goroutine
    of a run is one. *)
Theorem zero_margin_never_refreshes w0 calls st i g :
  minimumTTL s = 0 →
  reachable s w0 calls st →
  goroutines st !! i = Some g → refreshes g = false.
Proof.
  intros Hm Hreach. revert i g. revert st Hreach.
  apply (reachable_ind
           (λ st, ∀ i g, goroutines st !! i = Some g → refreshes g = false)).
  { intros i g Hi. by destruct (initial_callers _ _ _ _ Hi) as (? & ? & ->). }
  intros j st st' _ IH Hs i g Hi.
  apply step_inv in Hs as (g0 & g' & new & Hg0 & Hx & Hgs).
  pose proof (IH _ _ Hg0) as Hr0.
  assert (Hg' : refreshes g' = false ∧ new = []).
  { pose proof (exec_next _ _ _ _ _ _ _ _ _ Hx) as Hn.
    destruct g0; simpl in Hr0; try done; simpl in Hn;
      repeat match goal with
      | H : _ ∧ _ |- _ => destruct H
      | H : _ ∨ _ |- _ => destruct H
      | H : ∃ _, _ |- _ => destruct H
      | H : False |- _ => destruct H
      end; subst; try done.
    exfalso. cbn [exec] in Hx. rewrite GetWithTTL_unfold in Hx.
    destruct (si_GetWithTTL _ _ _ _) as [[[v t] [e|]] e1];
      cbv beta iota zeta in Hx.
    - by destruct (is_NotFound_pointer e).
    - rewrite Hm, zero_margin_ttl in Hx.
      destruct (bool_decide (Duration.sub t 0 < 0)); simplify_eq. }
  destruct Hg' as [Hg' ->]. rewrite Hgs, app_nil_r in Hi.
  destruct (decide (i = j)) as [->|Hne].
  - rewrite list_lookup_insert_eq in Hi by (by eapply lookup_lt_Some).
    by simplify_eq.
  - rewrite list_lookup_insert_ne in Hi by done. by eapply IH.
Qed.

Lemma exec_to_store g w es m g' w' es' m' new :
  exec s g w es m = Some (g', w', es', m', new) →
  to_store g' = 1%nat →
  ∃ ctx key, admitted s ctx key w = true.
Proof.
  intros Hx Hst. destruct g; cbn [exec] in Hx;
    try (repeat case_match; simplify_eq; done).
  - rewrite loadAndStore_load_unfold in Hx.
    destruct (loadFunc s) as [f|]; [|by simplify_eq].
    destruct (f ctx key (env w)) as [[res oe] e].
    destruct (admitted s ctx key w) eqn:Ha; [by eauto|by simplify_eq].
  - rewrite loadAndStore_load_unfold in Hx.
    destruct (loadFunc s) as [f|]; [|by simplify_eq].
    destruct (f Background key (env w)) as [[res oe] e].
    destruct (admitted s Background key w) eqn:Ha; [by eauto|by simplify_eq].
Qed.

(** X9. When nothing is admitted for writing (no load function, a load
    function that fails, or a predicate that rejects), no run of [Get]
    ever calls the underlying store's [Set]. *)
Theorem no_admission_no_writes w0 calls st :
  (∀ ctx key w, admitted s ctx key w = false) →
  reachable s w0 calls st →
  Set_calls (trace (world st)) = Set_calls (trace w0).
Proof.
  intros Hadm Hreach.
  enough (Set_calls (trace (world st)) = Set_calls (trace w0)
          ∧ ∀ i g, goroutines st !! i = Some g → to_store g = 0%nat) as [? _]
    by done.
  revert st Hreach.
  apply (reachable_ind
           (λ st, Set_calls (trace (world st)) = Set_calls (trace w0)
                  ∧ ∀ i g, goroutines st !! i = Some g → to_store g = 0%nat)).
  { split; [done|]. intros i g Hi.
    by destruct (initial_callers _ _ _ _ Hi) as (? & ? & ->). }
  intros j st st' _ [Hset IH] Hs.
  apply step_inv in Hs as (g0 & g' & new & Hg0 & Hx & Hgs).
  pose proof (IH _ _ Hg0) as Hst0.
  destruct (exec_trace _ _ _ _ _ _ _ _ _ Hx) as (tr & Htr & Hev).
  pose proof (exec_next _ _ _ _ _ _ _ _ _ Hx) as Hn.
  assert (Hg' : to_store g' = 0%nat).
  { destruct (to_store g') as [|[|n]] eqn:Hst; [done| |by destruct g'].
    destruct (exec_to_store _ _ _ _ _ _ _ _ _ Hx Hst) as (ctx & key & Ha).
    by rewrite Hadm in Ha. }
  split.
  - rewrite Htr. unfold Set_calls in *. rewrite tally_app, <- Hset.
    destruct g0; simpl in Hst0; try done; simpl in Hev;
      repeat match goal with
      | H : _ ∧ _ |- _ => destruct H
      | H : _ ∨ _ |- _ => destruct H
      | H : ∃ _, _ |- _ => destruct H
      end; subst; simpl; lia.
  - intros i g Hi. rewrite Hgs in Hi.
    apply lookup_app_Some in Hi as [Hi|[_ Hi]].
    + destruct (decide (i = j)) as [->|Hne].
      * rewrite list_lookup_insert_eq in Hi by (by eapply lookup_lt_Some).
        by simplify_eq.
      * rewrite list_lookup_insert_ne in Hi by done. by eapply IH.
    + destruct g0; simpl in Hn;
        repeat match goal with
        | H : _ ∧ _ |- _ => destruct H
        | H : False |- _ => destruct H
        end; subst;
        try (by rewrite lookup_nil in Hi).
      apply list_lookup_singleton_Some in Hi as [_ <-]. done.
Qed.

(** *** Errors of the store, and late arrivals *)

(** X10. An error of the underlying store that is not the not-found
    pointer is handed to the first caller of [Get] as it is, with the
    zero value of [T]: the load function is not called, nothing is
    written, and the record is removed from the table. *)
Theorem Get_propagates_store_error i ctx key st v stored e e1 :
  goroutines st !! i = Some (Get ctx key) →
  inprogressMap st !! getCacheKey key = None →
  si_GetWithTTL (cache s) ctx key (env (world st)) = ((v, stored, Some e), e1) →
  is_NotFound_pointer e = false →
  run_goroutine s 7 i st
  = returned_from_Get st i zero (Some e)
      (after_read (world st) ctx key v e1) (inprogressMap st) [].
Proof.
  intros Hg Hm Hread He.
  rewrite (run_goroutine_alone 7 i _ st Hg), Get_alone by done.
  unfold Get_first_arrival, returned_from_Get, after_read.
  rewrite GetWithTTL_unfold, Hread. cbv beta iota zeta.
  rewrite He.
  by rewrite <- (assoc_L (++)), app_nil_r.
Qed.

(** X11. A caller of [Get] that finds a record for its cache key in the
    table does not read the store, load or write: when the record's
    channel is closed (its leader has returned, a refresh may still be
    running) it returns the pair in the record at once; while the
    channel is open it waits at line 78, and the state is as it
    was. *)
Theorem Get_waits_for_leader i ctx key st l r :
  goroutines st !! i = Some (Get ctx key) →
  inprogressMap st !! getCacheKey key = Some l →
  entries st !! l = Some r →
  (lockChannel r = true →
   run_goroutine s 2 i st
   = mkState (world st) (entries st) (inprogressMap st)
       (<[i:=Get_returned l (value r) (err r)]> (goroutines st)))
  ∧ (lockChannel r = false →
     ∀ n, run_goroutine s (S n) i st
          = mkState (world st) (entries st) (inprogressMap st)
              (<[i:=Get_receive l]> (goroutines st))).
Proof.
  intros Hg Hm Hr. split; intros Ho.
  - rewrite (run_goroutine_alone 2 i _ st Hg). unfold Get.
    erewrite exec_n_step by (cbn [exec]; by rewrite Hm).
    erewrite exec_n_step by (cbn [exec]; by rewrite Hr, Ho).
    cbn [exec_n app]. by rewrite app_nil_r.
  - intros n. rewrite (run_goroutine_alone (S n) i _ st Hg). unfold Get.
    erewrite exec_n_step by (cbn [exec]; by rewrite Hm).
    destruct n; cbn [exec_n exec app]; rewrite ?Hr, ?Ho; by rewrite app_nil_r.
Qed.

(** *** [Set] and [GetWithTTL] together *)

Lemma margin_cancels m r elapsed :
  Duration.sub (Duration.sub (Duration.add m r) elapsed) m
  = Duration.sub r elapsed.
Proof.
  unfold Duration.add, Duration.sub.
  rewrite <- !Z.add_opp_r, wrap_add_l, <- Z.add_assoc, wrap_add_l.
  f_equal. lia.
Qed.

Lemma Set_last_event ctx key v options w :
  last (trace (Set_ s ctx key v options w).2)
  = Some (CallSet ctx key v
            (options ++ [store.WithExpiration (Set_expiration s options)])).
Proof.
  rewrite Set_unfold. cbv zeta. destruct (si_Set _ _ _ _ _ _) as [r e].
  cbn [snd trace]. by rewrite last_snoc.
Qed.

(** X12. The margin is invisible to a user of [Set] and [GetWithTTL]:
    when the underlying store hands back the expiration it received
    from [Set] less the time [elapsed], [GetWithTTL] returns the
    resolved expiration (the caller's, or the default TTL) less
    [elapsed], in Go's arithmetic on [time.Duration]; the margin
    cancels even where the sum overflows. *)
Theorem Set_GetWithTTL_round_trip ctx key v options w ctx' key' w' v' elapsed e1 :
  ∃ d,
    received_expiration <$> last (trace (Set_ s ctx key v options w).2)
    = Some (Some d)
    ∧ (si_GetWithTTL (cache s) ctx' key' (env w')
       = ((v', Duration.sub d elapsed, None), e1) →
       (GetWithTTL s ctx' key' w').1
       = (v', Duration.sub (resolved_expiration s options) elapsed, None)).
Proof.
  exists (Set_expiration s options). split.
  - rewrite Set_last_event. cbn [fmap option_fmap option_map received_expiration].
    by rewrite received_after_WithExpiration.
  - intros Hread. rewrite GetWithTTL_unfold, Hread. cbv zeta. cbn [fst].
    by rewrite Set_expiration_resolved, margin_cancels.
Qed.

(** *** The wrapper of stores beside the wrapper of caches *)

Lemma WithExpiration_injective d1 d2 :
  store.WithExpiration d1 = store.WithExpiration d2 → d1 = d2.
Proof.
  intros Heq.
  by apply (f_equal (λ f, store.expiration (f (store.mkOptions 0 0 [])))) in Heq.
Qed.

(** X13. [StaleCacheStore] over the same store and with the same margin
    reads as [StaleableCache] does: [GetWithTTL] returns the same
    triple and leaves the store as it does.  Its [Set] has no default
    expiration: the two make the same call exactly when the caller
    supplied an expiration other than zero, or the default TTL is
    zero. *)
Theorem wrappers_agree ctx key v options w :
  let c := store_wrappers.NewStaleCache (cache s) (minimumTTL s) in
  (store_wrappers.GetWithTTL c ctx key w).1 = (GetWithTTL s ctx key w).1
  ∧ env (store_wrappers.GetWithTTL c ctx key w).2
    = env (GetWithTTL s ctx key w).2
  ∧ (Duration.valid (refreshTTL s) →
     store_wrappers.Set_ c ctx key v options w = Set_ s ctx key v options w
     ↔ supplied_expiration options ≠ 0 ∨ refreshTTL s = 0).
Proof.
  cbv zeta. split; [|split].
  - rewrite GetWithTTL_unfold.
    unfold store_wrappers.GetWithTTL, emit, call, mbind, M_bind; simpl.
    by destruct (si_GetWithTTL _ _ _ _) as [[[v1 t] [e|]] e1].
  - rewrite GetWithTTL_unfold.
    unfold store_wrappers.GetWithTTL, emit, call, mbind, M_bind; simpl.
    by destruct (si_GetWithTTL _ _ _ _) as [[[v1 t] [e|]] e1].
  - intros Hv.
    assert (Hexp : store_wrappers.Set_expiration
                     (store_wrappers.NewStaleCache (cache s) (minimumTTL s))
                     options
                   = Duration.add (minimumTTL s) (supplied_expiration options))
      by reflexivity.
    assert (Hsame : store_wrappers.Set_expiration
                      (store_wrappers.NewStaleCache (cache s) (minimumTTL s))
                      options
                    = Set_expiration s options
                    ↔ supplied_expiration options ≠ 0 ∨ refreshTTL s = 0).
    { rewrite Hexp, Set_expiration_resolved. unfold resolved_expiration.
      destruct (decide (supplied_expiration options = 0)) as [H0|H0].
      - rewrite H0. split.
        + intros Heq. right. symmetry.
          apply (add_injective (minimumTTL s) 0 (refreshTTL s)); [|done..].
          unfold Duration.valid, Duration.min_int64, Duration.max_int64. lia.
        + intros [Hne| ->]; [done|reflexivity].
      - split; [by left|done]. }
    rewrite <- Hsame. split.
    + intros Heq.
      apply (f_equal (λ x, last (trace x.2))) in Heq.
      rewrite Set_last_event in Heq.
      unfold store_wrappers.Set_, emit, call, mbind, M_bind in Heq.
      simpl in Heq. destruct (si_Set _ _ _ _ _ _) as [r e] in Heq.
      simpl in Heq. rewrite last_snoc in Heq. simplify_eq.
      by apply WithExpiration_injective.
    + intros Heq. rewrite Set_unfold. cbv zeta.
      unfold store_wrappers.Set_, emit, call, mbind, M_bind. simpl.
      rewrite Heq. by destruct (si_Set _ _ _ _ _ _).
Qed.

(** X14. The margin of [StaleCacheStore] is invisible in the same way,
    without a default: when the underlying store hands back the
    expiration it received from [Set] less the time [elapsed],
    [GetWithTTL] returns the expiration the caller supplied (zero when
    none) less [elapsed]. *)
Theorem StaleCacheStore_round_trip (c : store_wrappers.StaleCacheStore)
    ctx key v options w ctx' key' w' v' elapsed e1 :
  ∃ d,
    received_expiration
      <$> last (trace (store_wrappers.Set_ c ctx key v options w).2)
    = Some (Some d)
    ∧ (si_GetWithTTL (store_wrappers.cache c) ctx' key' (env w')
       = ((v', Duration.sub d elapsed, None), e1) →
       (store_wrappers.GetWithTTL c ctx' key' w').1
       = (v', Duration.sub (supplied_expiration options) elapsed, None)).
Proof.
  exists (store_wrappers.Set_expiration c options). split.
  - unfold store_wrappers.Set_, emit, call, mbind, M_bind. simpl.
    destruct (si_Set _ _ _ _ _ _) as [r e]. simpl. rewrite last_snoc.
    cbn [fmap option_fmap option_map received_expiration].
    by rewrite received_after_WithExpiration.
  - intros Hread.
    unfold store_wrappers.GetWithTTL, emit, call, mbind, M_bind. simpl.
    rewrite Hread. unfold mret, M_ret. cbn [fst].
    by rewrite <- (margin_cancels (store_wrappers.minimumTTL c)
                     (supplied_expiration options) elapsed).
Qed.

(** *** Hits, and keys with the same cache key *)

(** X16. A hit costs nothing but the read: while the underlying store
    answers every read with an entry whose stored TTL is at least the
    margin (so the logical TTL is not negative), no run of [Get],
    however its callers are scheduled, calls the load function or the
    store's [Set], or starts a refresh. *)
Theorem fresh_never_loads w0 calls st :
  0 <= minimumTTL s →
  (∀ ctx key e, ∃ v t e',
     si_GetWithTTL (cache s) ctx key e = ((v, t, None), e')
     ∧ Duration.valid t ∧ minimumTTL s <= t) →
  reachable s w0 calls st →
  Load_calls (trace (world st)) = Load_calls (trace w0)
  ∧ Set_calls (trace (world st)) = Set_calls (trace w0)
  ∧ ∀ i g, goroutines st !! i = Some g → refreshes g = false.
Proof.
  intros H0 Hfresh Hreach.
  enough (Load_calls (trace (world st)) = Load_calls (trace w0)
          ∧ Set_calls (trace (world st)) = Set_calls (trace w0)
          ∧ ∀ i g, goroutines st !! i = Some g →
              refreshes g = false ∧ to_load g = 0%nat ∧ to_store g = 0%nat)
    as (? & ? & Hall).
  { split; [done|]. split; [done|]. intros i g Hi. by apply (Hall i g). }
  revert st Hreach.
  apply (reachable_ind
           (λ st, Load_calls (trace (world st)) = Load_calls (trace w0)
                  ∧ Set_calls (trace (world st)) = Set_calls (trace w0)
                  ∧ ∀ i g, goroutines st !! i = Some g →
                      refreshes g = false ∧ to_load g = 0%nat
                      ∧ to_store g = 0%nat)).
  { split; [done|]. split; [done|]. intros i g Hi.
    by destruct (initial_callers _ _ _ _ Hi) as (? & ? & ->). }
  intros j st st' _ (Hload & Hset & IH) Hs.
  apply step_inv in Hs as (g0 & g' & new & Hg0 & Hx & Hgs).
  destruct (IH _ _ Hg0) as (Hr0 & Hl0 & Hs0).
  destruct (exec_trace _ _ _ _ _ _ _ _ _ Hx) as (tr & Htr & Hev).
  pose proof (exec_next _ _ _ _ _ _ _ _ _ Hx) as Hn.
  assert (Hg' : (refreshes g' = false ∧ to_load g' = 0%nat ∧ to_store g' = 0%nat)
                ∧ new = []
                ∧ tally is_CallLoad tr = 0%nat ∧ tally is_CallSet tr = 0%nat).
  { destruct g0; simpl in Hr0, Hl0, Hs0; try done; simpl in Hn, Hev;
      repeat match goal with
      | H : _ ∧ _ |- _ => destruct H
      | H : _ ∨ _ |- _ => destruct H
      | H : ∃ _, _ |- _ => destruct H
      | H : False |- _ => destruct H
      end; subst; try done;
      exfalso; cbn [exec] in Hx; rewrite GetWithTTL_unfold in Hx;
      destruct (Hfresh ctx key (env (world st))) as (v & t & e' & Hread & Hv & Hle);
      rewrite Hread in Hx; cbv beta iota zeta in Hx;
      rewrite add_sub_cancel in Hx by done;
      rewrite bool_decide_eq_false_2 in Hx by lia;
      (rewrite sub_exact in Hx
         by (unfold Duration.valid, Duration.min_int64, Duration.max_int64 in *;
             lia));
      rewrite bool_decide_eq_false_2 in Hx by lia; simplify_eq. }
  destruct Hg' as (Hg' & -> & HtrL & HtrS).
  split; [|split].
  - rewrite Htr. unfold Load_calls in *. rewrite tally_app. lia.
  - rewrite Htr. unfold Set_calls in *. rewrite tally_app. lia.
  - intros i g Hi. rewrite Hgs, app_nil_r in Hi.
    destruct (decide (i = j)) as [->|Hne].
    + rewrite list_lookup_insert_eq in Hi by (by eapply lookup_lt_Some).
      by simplify_eq.
    + rewrite list_lookup_insert_ne in Hi by done. by eapply IH.
Qed.

(** X17. The single-flight table is keyed by the cache key of
    [getCacheKey]: of two callers whose keys differ but have the same
    cache key (a string and a key generator that returns it), the one
    that arrives second waits on the record of the first, and only the
    first caller's key is to be read from the store. *)
Theorem same_cache_key_coalesces i j ctx key ctx' key' st :
  i ≠ j →
  goroutines st !! i = Some (Get ctx key) →
  goroutines st !! j = Some (Get ctx' key') →
  getCacheKey key = getCacheKey key' →
  inprogressMap st !! getCacheKey key = None →
  run s [i; j] st
  = mkState (world st)
      (entries st ++ [mkMapEntry false zero None])
      (<[getCacheKey key:=length (entries st)]> (inprogressMap st))
      (<[j:=Get_receive (length (entries st))]>
         (<[i:=Get_GetWithTTL ctx key (length (entries st))]> (goroutines st))).
Proof.
  intros Hne Hi Hj Hkey Hm. destruct st as [w es m gs]. simpl in *.
  unfold step. cbn [goroutines world entries inprogressMap].
  rewrite Hi. unfold Get at 1. cbn [exec]. rewrite Hm.
  cbn [goroutines world entries inprogressMap]. rewrite app_nil_r.
  rewrite list_lookup_insert_ne, Hj by done.
  unfold Get. cbn [exec]. rewrite <- Hkey, lookup_insert_eq.
  by rewrite app_nil_r.
Qed.

(** *** Construction *)

Lemma options_applied (opts : list ExportedOption) : ∀ c,
  fold_left (λ c opt, opt c) (exported <$> opts) c
  = mkStaleableCache (cache c)
      (last_MaxStaleCacheTTL (minimumTTL c) opts)
      (last_TTL (refreshTTL c) opts)
      (last_LoadFunction (loadFunc c) opts)
      (last_Predicate (shouldCache c) opts).
Proof.
  induction opts as [|o opts IH]; intros c; [by destruct c|].
  rewrite fmap_cons. cbn [fold_left]. rewrite IH. by destruct o.
Qed.

(** X15. [NewStaleable] with the exported options keeps the underlying
    cache it is given and decides each setting by the last option of
    its kind, whatever the order of the others; without an option of
    a kind the margin and the default TTL are zero, and there is no
    load function and no predicate. *)
Theorem NewStaleable_last_option_wins underlyingCache opts :
  NewStaleable underlyingCache (exported <$> opts)
  = mkStaleableCache underlyingCache
      (last_MaxStaleCacheTTL 0 opts) (last_TTL 0 opts)
      (last_LoadFunction None opts) (last_Predicate None opts).
Proof. unfold NewStaleable. by rewrite options_applied. Qed.

End facts.

End properties.

(** ** The theorems on the test double *)

Section test_runs.
#[local] Existing Instance test_model.
Local Open Scope Z_scope.

Lemma valid_durations :
Duration.valid 0 ∧ Duration.valid (2 * Duration.Second)
∧ Duration.valid (3 * Duration.Second) ∧ Duration.valid (5 * Duration.Second)
∧ Duration.valid Duration.Minute.
Proof.
unfold Duration.valid, Duration.min_int64, Duration.max_int64,
  Duration.Minute, Duration.Second, Duration.Millisecond,
  Duration.Microsecond, Duration.Nanosecond.
lia.
Qed.

(** [TestStaleCacheGetWithRefreshFunction]: a stored TTL of 2s under a
  margin of one minute is stale; the cached value is returned and a
  refresh is started. *)
Lemma Get_classifies_by_logical_ttl_witness :
let s := staleable_holding (2 * Duration.Second) in
staleness (minimumTTL s) (2 * Duration.Second) None = Some STALE
∧ run_goroutine s 7 0 (callers 1)
  = returned_from_Get (callers 1) 0 "my-cache-value" None
      (after_read empty_world request my_key "my-cache-value" 1%nat)
      (<["my-key":=0%nat]> ∅) [refresh_load my_key].
Proof.
intros s. split; [reflexivity|].
destruct valid_durations as (_ & H2 & _ & _ & Hm).
exact (proj2 (Get_classifies_by_logical_ttl (model := test_model) s 0 request
                my_key (callers 1) "my-cache-value" (2 * Duration.Second) None
                1%nat eq_refl H2 Hm ltac:(vm_compute; discriminate))
         eq_refl eq_refl).
Defined.

(** [TestStaleCacheGetWithTTLButStaleCache]: 3s left under a margin of
  5s is a logical TTL of -2s. *)
Lemma GetWithTTL_logical_ttl_witness :
let s := staleable_answering ("my-cache-value", 3 * Duration.Second, None) in
Duration.min_int64 <= 3 * Duration.Second - minimumTTL s
∧ (GetWithTTL s request my_key empty_world).1
  = ("my-cache-value", - (2 * Duration.Second), None).
Proof.
intros s.
assert (Hlo : Duration.min_int64 <= 3 * Duration.Second - minimumTTL s)
  by (vm_compute; discriminate).
split; [exact Hlo|].
destruct valid_durations as (_ & _ & H3 & H5 & _).
exact (proj2 (GetWithTTL_logical_ttl (model := test_model) s request my_key
                empty_world "my-cache-value" (3 * Duration.Second) None 1%nat
                eq_refl H3 H5 ltac:(vm_compute; discriminate)) Hlo).
Defined.

(** [TestStaleCacheGetWithTTLWhenError], with a value and a TTL next to
  the error. *)
Lemma GetWithTTL_error_zero_witness :
let s := staleable_answering ("partial", 7 * Duration.Second, Some NotFoundStruct) in
(GetWithTTL s request my_key empty_world).1 = ("", 0, Some NotFoundStruct).
Proof.
intros s.
exact (GetWithTTL_error_zero (model := test_model) s request my_key empty_world
         "partial" (7 * Duration.Second) NotFoundStruct 1%nat eq_refl).
Defined.

(** [TestStaleCacheSet]: expiration 1s under a margin of 5s. *)
Lemma Set_forwards_margin_plus_resolved_witness :
let s := staleable_answering ("", 0, None) in
∃ options',
  trace (Set_ s request my_key "my-cache-value"
           [store.WithExpiration (1 * Duration.Second)] empty_world).2
  = [CallSet request my_key "my-cache-value" options']
  ∧ received_expiration (CallSet request my_key "my-cache-value" options')
    = Some (6 * Duration.Second).
Proof.
intros s.
destruct (Set_forwards_margin_plus_resolved (model := test_model) s request
            my_key "my-cache-value"
            [store.WithExpiration (1 * Duration.Second)] empty_world)
  as (options' & Htrace & _ & _ & _ & Hsix).
exists options'. split; [exact Htrace|]. apply Hsix; reflexivity.
Defined.


(** The reload of [TestStaleCacheGetWithParallelRequestsWithNoCacheEntry]
  writes once. *)
Lemma loadAndStore_writes_iff_admitted_witness :
let s := staleable_missing None (Some (mock_load ("my-cache-value", None))) in
admitted s request my_key empty_world = true
∧ Set_calls (trace (loadAndStore s request my_key empty_world).2) = 1%nat
∧ loadAndStore s request my_key empty_world
  = (("my-cache-value", None),
     mkWorld 2%nat
       [CallLoad request my_key;
        CallSet request my_key "my-cache-value"
          [store.WithExpiration (3 * Duration.Second)]]).
Proof.
intros s. split; [reflexivity|].
destruct (loadAndStore_writes_iff_admitted (model := test_model) s request
            my_key empty_world) as (Hiff & _ & _ & _ & Hwritten & _).
split; [apply Hiff; reflexivity|].
apply (Hwritten (mock_load ("my-cache-value", None)) "my-cache-value" 1%nat
         None 2%nat eq_refl eq_refl).
- intros p Hp. discriminate Hp.
- reflexivity.
Defined.

(** [TestStaleCacheGetWithNoCacheEntryAndNoLoader]. *)
Lemma Get_recovers_not_found_witness :
let s := staleable_missing None None in
loadFunc s = None
∧ goroutines (run_goroutine s 7 0 (callers 1)) !! 0%nat
  = Some (Get_returned 0 "" None).
Proof.
intros s. split; [reflexivity|].
destruct valid_durations as (H0 & _).
destruct (Get_recovers_not_found (model := test_model) s 0 request my_key
            (callers 1) "" 0 1%nat eq_refl eq_refl eq_refl H0)
  as (_ & _ & Hnone).
apply Hnone. reflexivity.
Defined.

(** The write fails; the loaded value is returned all the same. *)
Lemma Get_discards_write_error_witness :
let s := staleable_missing (Some (errorString "write failed"))
           (Some (mock_load ("my-cache-value", None))) in
run_goroutine s 7 0 (callers 1)
= returned_from_Get (callers 1) 0 "my-cache-value" None
    (mkWorld 3%nat
       [CallGetWithTTL request my_key; Println "";
        CallLoad request my_key;
        CallSet request my_key "my-cache-value"
          [store.WithExpiration (Set_expiration s [])]])
    ∅ [].
Proof.
intros s. destruct valid_durations as (H0 & _).
exact (Get_discards_write_error (model := test_model) s 0 request my_key
         (callers 1) "" 0 (Some NotFoundPtr) 1%nat
         (mock_load ("my-cache-value", None)) "my-cache-value" 2%nat
         (errorString "write failed") 3%nat
         eq_refl eq_refl eq_refl H0 (or_introl eq_refl) eq_refl eq_refl
         ltac:(intros p Hp; discriminate Hp) eq_refl).
Defined.




(** Three callers coalesced on one record: one read, one record. *)
Lemma store_read_once_per_record_witness :
let s := staleable_missing None (Some (mock_load ("my-cache-value", None))) in
let st := run s [0; 1; 2; 0; 0; 0; 0; 0; 0; 1; 2]%nat (callers 3) in
GetWithTTL_calls (trace (world st)) = 1%nat
∧ ((1 + 0 = 0 + 1)%nat ∧ (1 ≤ 3)%nat ∧ (1 ≤ 0 + 3)%nat).
Proof.
intros s st. split; [reflexivity|].
exact (store_read_once_per_record (model := test_model) s empty_world
         (replicate 3 (request, my_key)) st (reachable_run s empty_world _ _)).
Defined.

(** The same run: one load and one write for the one read. *)
Lemma loads_and_writes_bounded_witness :
let s := staleable_missing None (Some (mock_load ("my-cache-value", None))) in
let st := run s [0; 1; 2; 0; 0; 0; 0; 0; 0; 1; 2]%nat (callers 3) in
Load_calls (trace (world st)) = 1%nat ∧ Set_calls (trace (world st)) = 1%nat
∧ ((1 + 0 ≤ 0 + 1)%nat ∧ (1 + 0 ≤ 0 + 1)%nat
   ∧ (1 ≤ 0 + 3)%nat ∧ (1 ≤ 0 + 3)%nat).
Proof.
intros s st. split; [reflexivity|]. split; [reflexivity|].
exact (loads_and_writes_bounded (model := test_model) s empty_world
         (replicate 3 (request, my_key)) st (reachable_run s empty_world _ _)).
Defined.

(** [TestStaleCacheGetWithNoCacheEntry]: the loaded value is written
  with the margin of 3s, the default TTL being zero. *)
Lemma reload_writes_default_expiration_witness :
let s := staleable_missing None (Some (mock_load ("my-cache-value", None))) in
let st := run s (replicate 7 0%nat) (callers 1) in
let e := CallSet request my_key "my-cache-value"
           [store.WithExpiration (3 * Duration.Second)] in
last (trace (world st)) = Some e
∧ received_expiration e = Some (3 * Duration.Second).
Proof.
intros s st e. split; [reflexivity|].
destruct (reload_writes_default_expiration (model := test_model) s empty_world
            (replicate 1 (request, my_key)) st
            (reachable_run s empty_world _ _))
  as (tr & Htr & Hall).
apply (Hall e); [|reflexivity].
apply (f_equal last) in Htr. cbn [trace empty_world app] in Htr.
apply last_Some_elem_of. rewrite <- Htr. reflexivity.
Defined.

(** Two callers, the second one at line 78 while the first has just
  created the record: the second cannot step, the first can. *)
Lemma Get_never_panics_witness :
let s := staleable_holding (2 * Duration.Second) in
let st := run s [0; 1]%nat (callers 2) in
step s 1 st = None
∧ (finished (Get_receive 0) = true
   ∨ ∃ l r j leader,
       Get_receive 0 = Get_receive l
       ∧ entries st !! l = Some r ∧ lockChannel r = false
       ∧ goroutines st !! j = Some leader ∧ (0 < leads l leader)%nat
       ∧ is_Some (step s j st)).
Proof.
intros s st. split; [reflexivity|].
exact (Get_never_panics (model := test_model) s empty_world
         (replicate 2 (request, my_key)) st 1%nat (Get_receive 0)
         (reachable_run s empty_world _ [0; 1]%nat) eq_refl eq_refl).
Defined.

(** One caller that reloads takes seven steps, within the bound of
  eight. *)
Lemma Get_terminates_witness :
let s := staleable_missing None (Some (mock_load ("my-cache-value", None))) in
let st := run_goroutine s 7 0 (callers 1) in
nsteps (steps s) 7 (callers 1) st
∧ (7 + tally weight (goroutines st) ≤ 8 * 1)%nat.
Proof.
intros s st.
assert (Hrun : nsteps (steps s) 7 (callers 1) st).
{ apply nsteps_run_goroutine.
  intros [|[|[|[|[|[|[|k]]]]]]] Hk; try lia; vm_compute; by eexists. }
split; [exact Hrun|].
exact (Get_terminates (model := test_model) s empty_world
         (replicate 1 (request, my_key)) 7 st Hrun).
Defined.

(** [TestStaleCacheGetWithParallelRequestsWithNoCacheEntry]: when the
  three callers have returned, the table is empty. *)
Lemma quiescent_table_empty_witness :
let s := staleable_missing None (Some (mock_load ("my-cache-value", None))) in
let st := run s [0; 1; 2; 0; 0; 0; 0; 0; 0; 1; 2]%nat (callers 3) in
goroutines st = replicate 3 (Get_returned 0 "my-cache-value" None)
∧ inprogressMap st = ∅
∧ ∀ l r, entries st !! l = Some r → lockChannel r = true.
Proof.
intros s st. split; [reflexivity|].
apply (quiescent_table_empty (model := test_model) s empty_world
         (replicate 3 (request, my_key)) st (reachable_run s empty_world _ _)).
intros [|[|[|i]]] g Hg; vm_compute in Hg; [| | |discriminate Hg];
  injection Hg as <-; reflexivity.
Defined.

(** A stale key after its leader has returned: the entry is still in
  the table, and the refresh that is to delete it can step. *)
Lemma table_entries_held_witness :
let s := staleable_holding (2 * Duration.Second) in
let st := run_goroutine s 7 0 (callers 1) in
inprogressMap st !! "my-key" = Some 0%nat
∧ goroutines st = [Get_returned 0 "my-cache-value" None; refresh_load my_key]
∧ ∃ i g, goroutines st !! i = Some g ∧ (0 < holds "my-key" g)%nat
         ∧ is_Some (step s i st).
Proof.
intros s st. split; [reflexivity|]. split; [reflexivity|].
exact (table_entries_held (model := test_model) s empty_world
         (replicate 1 (request, my_key)) st "my-key" 0%nat
         (reachable_run s empty_world _ (replicate 7 0%nat)) eq_refl).
Defined.

(** [NewStaleable(ic, WithTTL(1s))] over an entry whose TTL has run out
  a second ago: without a margin the caller reloads. *)
Lemma zero_margin_never_refreshes_witness :
let s := NewStaleable
           (mock_store ("my-cache-value", - Duration.Second, None) None)
           [WithTTL Duration.Second;
            WithStaleCacheLoadFunction (mock_load ("updated-cache-value", None))] in
let st := run s [0; 0]%nat (callers 1) in
minimumTTL s = 0
∧ goroutines st !! 0%nat = Some (Get_load request my_key 0)
∧ refreshes (Get_load request my_key 0) = false.
Proof.
intros s st. split; [reflexivity|]. split; [reflexivity|].
exact (zero_margin_never_refreshes (model := test_model) s empty_world
         (replicate 1 (request, my_key)) st 0%nat (Get_load request my_key 0)
         eq_refl (reachable_run s empty_world _ [0; 0]%nat) eq_refl).
Defined.

(** [TestStaleCacheGetWithNoCacheEntryAndNoLoader], three callers:
  nothing is written. *)
Lemma no_admission_no_writes_witness :
let s := staleable_missing None None in
let st := run s [0; 1; 2; 0; 0; 0; 0; 0; 0; 1; 2]%nat (callers 3) in
goroutines st = replicate 3 (Get_returned 0 "" None)
∧ Set_calls (trace (world st)) = Set_calls (trace empty_world).
Proof.
intros s st. split; [reflexivity|].
apply (no_admission_no_writes (model := test_model) s empty_world
         (replicate 3 (request, my_key)) st).
- intros ctx key w. reflexivity.
- apply reachable_run.
Defined.

(** [TestStaleCacheGetWhenError]: the store answers with the struct
  [store.NotFound{}], which the caller receives. *)
Lemma Get_propagates_store_error_witness :
let s := staleable_answering ("", 0, Some NotFoundStruct) in
run_goroutine s 7 0 (callers 1)
= returned_from_Get (callers 1) 0 "" (Some NotFoundStruct)
    (after_read empty_world request my_key "" 1%nat) ∅ [].
Proof.
intros s.
exact (Get_propagates_store_error (model := test_model) s 0 request my_key
         (callers 1) "" 0 NotFoundStruct 1%nat eq_refl eq_refl eq_refl eq_refl).
Defined.

(** A second caller that arrives while the refresh of a stale key is
  still to run returns the stale value from the closed record. *)
Lemma Get_waits_for_leader_witness :
let s := staleable_holding (2 * Duration.Second) in
let st := run_goroutine s 7 0 (callers 2) in
goroutines st
= [Get_returned 0 "my-cache-value" None; Get request my_key;
   refresh_load my_key]
∧ run_goroutine s 2 1 st
  = mkState (world st) (entries st) (inprogressMap st)
      [Get_returned 0 "my-cache-value" None;
       Get_returned 0 "my-cache-value" None; refresh_load my_key].
Proof.
intros s st. split; [reflexivity|].
exact (proj1 (Get_waits_for_leader (model := test_model) s 1 request my_key st
                0%nat (mkMapEntry true "my-cache-value" None)
                eq_refl eq_refl eq_refl) eq_refl).
Defined.

(** [Set] without options under a default TTL of 1s and a margin of one
  minute, read back 59s later from a store that then holds 2s. *)
Lemma Set_GetWithTTL_round_trip_witness :
let s := staleable_holding (2 * Duration.Second) in
received_expiration
  <$> last (trace (Set_ s request my_key "my-cache-value" [] empty_world).2)
= Some (Some (61 * Duration.Second))
∧ (GetWithTTL s request my_key empty_world).1
  = ("my-cache-value",
     Duration.sub (resolved_expiration s []) (59 * Duration.Second), None).
Proof.
intros s. split; [reflexivity|].
destruct (Set_GetWithTTL_round_trip (model := test_model) s request my_key
            "my-cache-value" [] empty_world request my_key empty_world
            "my-cache-value" (59 * Duration.Second) 1%nat)
  as (d & Hd & Hread).
vm_compute in Hd. injection Hd as Hd. subst d.
apply Hread. reflexivity.
Defined.

(** Under a default TTL of 1s, [Set] without an expiration is not the
  same call in the two wrappers. *)
Lemma wrappers_agree_witness :
let s := staleable_holding (2 * Duration.Second) in
let c := store_wrappers.NewStaleCache (cache s) (minimumTTL s) in
Duration.valid (refreshTTL s)
∧ store_wrappers.Set_ c request my_key "my-cache-value" [] empty_world
  ≠ Set_ s request my_key "my-cache-value" [] empty_world.
Proof.
intros s c.
assert (Hv : Duration.valid (refreshTTL s)) by (vm_compute; split; discriminate).
split; [exact Hv|]. intros Heq.
destruct (wrappers_agree (model := test_model) s request my_key
            "my-cache-value" [] empty_world) as (_ & _ & Hiff).
apply (Hiff Hv) in Heq. destruct Heq as [Hne|Hz].
- apply Hne. reflexivity.
- discriminate Hz.
Defined.

(** [TestStaleCacheSet] of the store wrapper: 1s supplied under a margin
  of 5s is forwarded as 6s, and read back at once as 1s. *)
Lemma StaleCacheStore_round_trip_witness :
let c := store_wrappers.NewStaleCache
           (mock_store ("my-cache-value", 6 * Duration.Second, None) None)
           (5 * Duration.Second) in
let options := [store.WithExpiration Duration.Second] in
received_expiration
  <$> last (trace (store_wrappers.Set_ c request my_key "my-cache-value"
                     options empty_world).2)
= Some (Some (6 * Duration.Second))
∧ (store_wrappers.GetWithTTL c request my_key empty_world).1
  = ("my-cache-value", Duration.sub (supplied_expiration options) 0, None).
Proof.
intros c options. split; [reflexivity|].
destruct (StaleCacheStore_round_trip (model := test_model) c request my_key
            "my-cache-value" options empty_world request my_key empty_world
            "my-cache-value" 0 1%nat)
  as (d & Hd & Hread).
vm_compute in Hd. injection Hd as Hd. subst d.
apply Hread. reflexivity.
Defined.

(** [TestStaleCacheGetWithParallelRequests]: three callers of an entry
  with two minutes left under a margin of one minute; the load function
  is configured and never called. *)
Lemma fresh_never_loads_witness :
let s := staleable_holding (2 * Duration.Minute) in
let st := run s [0; 1; 2; 0; 0; 0; 0; 1; 2]%nat (callers 3) in
goroutines st = replicate 3 (Get_returned 0 "my-cache-value" None)
∧ Load_calls (trace (world st)) = Load_calls (trace empty_world)
∧ Set_calls (trace (world st)) = Set_calls (trace empty_world).
Proof.
intros s st. split; [reflexivity|].
destruct (fresh_never_loads (model := test_model) s empty_world
            (replicate 3 (request, my_key)) st) as (Hload & Hset & _).
- vm_compute. discriminate.
- intros ctx key e. exists "my-cache-value", (2 * Duration.Minute), (S e).
  split; [reflexivity|]. split.
  + vm_compute. split; discriminate.
  + vm_compute. discriminate.
- apply reachable_run.
- split; [exact Hload|exact Hset].
Defined.

(** A caller with the string ["my-key"] and a caller with a key
  generator that returns ["my-key"]: the second waits for the first. *)
Lemma same_cache_key_coalesces_witness :
let s := staleable_holding (2 * Duration.Second) in
let st := initial empty_world
            [(request, KString "my-key"); (request, KGenerator "my-key")] in
run s [0; 1]%nat st
= mkState empty_world [mkMapEntry false "" None] (<["my-key":=0%nat]> ∅)
    [Get_GetWithTTL request (KString "my-key") 0; Get_receive 0].
Proof.
intros s st.
exact (same_cache_key_coalesces (model := test_model) s 0 1 request
         (KString "my-key") request (KGenerator "my-key") st
         ltac:(discriminate) eq_refl eq_refl eq_refl eq_refl).
Defined.

End test_runs.
